(** * gcloud-node, lib/common/grpc-service.js: a shallow embedding

    The module under verification is the gRPC transport shim of gcloud-node:
    the Struct codec ([encodeValue_], [objToStruct_], [decodeValue_],
    [structToObj_]), the error table and its translator
    ([GRPC_ERROR_CODE_TO_HTTP], [getError_]), the retry predicate
    ([shouldRetryRequest_]), the unary call path of [request], the credential
    gate ([getGrpcCredentials_]) and the service registry ([getService_]).

    Conventions of the embedding.
    - A JavaScript value is a [jsval].  An object is the list of its own
      enumerable properties in enumeration order, and its prototype is
      [Object.prototype]: a read of a name the object does not own finds what
      [Object.prototype] holds under that name ([inherited]).
    - An own property named [hasOwnProperty] shadows the method the loops of
      the codec call, and an assignment to [__proto__] adds no property.  The
      loops and [set_prop] describe objects without such names ([ordinary]);
      a statement whose truth depends on it carries that as a hypothesis.
    - Numbers are integers: every number the module inspects (status codes,
      array indices, the 0 of a null leaf) is one, and the codec carries
      numbers without looking at them.
    - A thrown exception is the [Throw] case of [result].
    - The packages the module calls ([is], [extend], [retry-request], the
      protobuf runtime under [grpc]) are modelled by what they do on these
      values; each model says so where it is defined.
    - [requestStream], [loadProtoFile_] and [createDeadline_] are outside the
      statements proved here and are not modelled; neither are the removal of
      [autoPaginate] from [reqOpts] and the deadline in [request]. *)

From stdpp Require Import base option list strings pretty gmap.
From Stdlib Require Import ZArith Strings.Byte.

Set Warnings "-clear-no-such-hyp".

Open Scope string_scope.
Open Scope Z_scope.

(** ** JavaScript values *)

Unset Elimination Schemes.
(** [VOther type_of text] stands for a value of any other class (a function,
    a Date, a RegExp, a symbol): [type_of] is what [typeof] answers for it and
    [text] what [String(...)] returns.  The induction principle is proved
    below as [jsval_ind]. *)
Inductive jsval : Type :=
| VUndefined
| VNull
| VBool (b : bool)
| VNumber (n : Z)
| VString (s : string)
| VBuffer (bytes : list byte)
| VObject (props : list (string * jsval))
| VArray (elems : list jsval)
| VOther (type_of text : string).
Set Elimination Schemes.

Inductive exn : Type :=
| TypeError (msg : string)
| Error (msg : string)
| RangeError (msg : string).

Inductive result (A : Type) : Type :=
| Ok (a : A)
| Throw (e : exn).
Arguments Ok {A} a.
Arguments Throw {A} e.

#[global] Instance result_ret : MRet result := λ A a, Ok a.
#[global] Instance result_bind : MBind result := λ A B f m,
  match m with
  | Ok a => f a
  | Throw e => Throw e
  end.

Definition props := list (string * jsval).

(** *** Type tests: the [is] package and [Buffer.isBuffer] *)

Definition is_null (value : jsval) : bool :=
  match value with VNull => true | _ => false end.
Definition is_undefined (value : jsval) : bool :=
  match value with VUndefined => true | _ => false end.
Definition is_number (value : jsval) : bool :=
  match value with VNumber _ => true | _ => false end.
Definition is_string (value : jsval) : bool :=
  match value with VString _ => true | _ => false end.
Definition is_boolean (value : jsval) : bool :=
  match value with VBool _ => true | _ => false end.
Definition isBuffer (value : jsval) : bool :=
  match value with VBuffer _ => true | _ => false end.
Definition is_object (value : jsval) : bool :=
  match value with VObject _ => true | _ => false end.
Definition is_array (value : jsval) : bool :=
  match value with VArray _ => true | _ => false end.

(** [typeof value]. *)
Definition typeof (value : jsval) : string :=
  match value with
  | VUndefined => "undefined"
  | VNull => "object"
  | VBool _ => "boolean"
  | VNumber _ => "number"
  | VString _ => "string"
  | VBuffer _ => "object"
  | VObject _ => "object"
  | VArray _ => "object"
  | VOther t _ => t
  end.

(** ToBoolean. *)
Definition truthy (value : jsval) : bool :=
  match value with
  | VUndefined | VNull => false
  | VBool b => b
  | VNumber n => negb (n =? 0)
  | VString s => negb (String.eqb s "")
  | _ => true
  end.

(** [a || b]. *)
Definition js_or (a b : jsval) : jsval := if truthy a then a else b.

(** [a === b] where one side is a primitive constant of the source. *)
Definition strict_eq_prim (a b : jsval) : bool :=
  match a, b with
  | VUndefined, VUndefined => true
  | VNull, VNull => true
  | VBool x, VBool y => bool_decide (x = y)
  | VNumber x, VNumber y => x =? y
  | VString x, VString y => String.eqb x y
  | _, _ => false
  end.

(** *** Properties *)

Fixpoint lookup_prop (key : string) (o : props) : option jsval :=
  match o with
  | [] => None
  | (k, v) :: rest => if String.eqb k key then Some v else lookup_prop key rest
  end.

(** [o[key] = v] on an object, for a key other than [__proto__]: an existing
    property keeps its place, a new one is enumerated last. *)
Fixpoint set_prop (o : props) (key : string) (v : jsval) : props :=
  match o with
  | [] => [(key, v)]
  | (k, w) :: rest =>
      if String.eqb k key then (k, v) :: rest else (k, w) :: set_prop rest key v
  end.

Definition keys (o : props) : list string := o.*1.

Definition index_props {A} (f : A → jsval) (l : list A) : props :=
  imap (λ i x, (pretty i, f x)) l.

(** The own enumerable properties that [for (prop in o)] visits once the
    [hasOwnProperty] filter has been applied. *)
Definition own_props (o : jsval) : props :=
  match o with
  | VObject ps => ps
  | VArray elems => index_props id elems
  | VString s => index_props (λ c, VString (String c "")) (String.list_ascii_of_string s)
  | VBuffer bytes => index_props (λ b, VNumber (Z.of_N (Byte.to_N b))) bytes
  | _ => []
  end.

(** The methods every object inherits from [Object.prototype]. *)
Definition Object_prototype : list string :=
  ["constructor"; "toString"; "toLocaleString"; "valueOf"; "hasOwnProperty";
   "isPrototypeOf"; "propertyIsEnumerable"; "__defineGetter__";
   "__defineSetter__"; "__lookupGetter__"; "__lookupSetter__"].

(** What a read of [key] finds on [Object.prototype] when the object has no
    own property of that name: one of the inherited methods, for [__proto__]
    the prototype object itself (an object without enumerable properties), and
    [undefined] for any other name. *)
Definition inherited (key : string) : jsval :=
  if String.eqb key "constructor"
  then VOther "function" "function Object() { [native code] }"
  else if bool_decide (key ∈ Object_prototype)
  then VOther "function" ("function " +:+ key +:+ "() { [native code] }")
  else if String.eqb key "__proto__" then VOther "object" "[object Object]"
  else VUndefined.

(** [o.key] and [o[key]] on an object given by its properties: the own
    property if there is one, else what the prototype holds. *)
Definition read (o : props) (key : string) : jsval :=
  default (inherited key) (lookup_prop key o).

(** [o.key] and [o[key]] on any value.  Reading from [null] or [undefined]
    throws.  From arrays, strings, buffers and numbers the module only ever
    reads names they neither own nor inherit ([kind], [stringify], [fields],
    ..., and [value[value.kind]] where [value.kind] was itself missing), never
    an index, [length] or a method, so they read as [undefined]. *)
Definition get (o : jsval) (key : string) : result jsval :=
  match o with
  | VUndefined =>
      Throw (TypeError ("Cannot read property '" +:+ key +:+ "' of undefined"))
  | VNull =>
      Throw (TypeError ("Cannot read property '" +:+ key +:+ "' of null"))
  | VObject ps => Ok (read ps key)
  | _ => Ok VUndefined
  end.

(** [String(value)]. *)
Fixpoint String_ (value : jsval) : string :=
  match value with
  | VUndefined => "undefined"
  | VNull => "null"
  | VBool b => if b then "true" else "false"
  | VNumber n => pretty n
  | VString s => s
  | VBuffer bytes => String.string_of_list_byte bytes
  | VObject _ => "[object Object]"
  | VArray elems =>
      String.concat ","
        (map (λ e, if is_null e || is_undefined e then "" else String_ e) elems)
  | VOther _ text => text
  end.

(** ** The Struct codec *)

(** [for (var prop in obj) if (obj.hasOwnProperty(prop)) body], threading the
    object that the body fills, for an [obj] that has [hasOwnProperty] from
    [Object.prototype]: the test holds of each property enumerated here. *)
Definition for_in {A} (body : A → string → jsval → result A)
  : props → A → result A :=
  fix go ps acc :=
    match ps with
    | [] => Ok acc
    | (prop, value) :: rest => acc' ← body acc prop value; go rest acc'
    end.

(** [array.map(callback)]: the callback receives the element and its index. *)
Definition array_map (callback : jsval → nat → result jsval)
  : list jsval → nat → result (list jsval) :=
  fix go elems index :=
    match elems with
    | [] => Ok []
    | value :: rest =>
        v ← callback value index; vs ← go rest (S index); Ok (v :: vs)
    end.

(** [GrpcService.objToStruct_], with the encoder it calls on each field as a
    parameter so that [encodeValue_] can be defined by recursion through it. *)
Definition objToStruct_with (encodeValue : jsval → jsval → result jsval)
    (obj : props) (options : jsval) : result jsval :=
  let options := js_or options (VObject []) in
  fields ← for_in (λ fields prop value,
                     if is_undefined value then Ok fields
                     else v ← encodeValue value options;
                          Ok (set_prop fields prop v))
                  obj [];
  Ok (VObject [("fields", VObject fields)]).

(** [GrpcService.encodeValue_].  [value.map(GrpcService.encodeValue_)] hands
    the element's index to the [options] parameter, and the object branch
    calls [objToStruct_(value)] with no options at all. *)
Fixpoint encodeValue_ (value options : jsval) {struct value} : result jsval :=
  let options := js_or options (VObject []) in
  if is_null value then Ok (VObject [("nullValue", VNumber 0)])
  else if is_number value then Ok (VObject [("numberValue", value)])
  else if is_string value then Ok (VObject [("stringValue", value)])
  else if is_boolean value then Ok (VObject [("boolValue", value)])
  else if isBuffer value then Ok (VObject [("blobValue", value)])
  else
    match value with
    | VObject obj =>
        struct ← objToStruct_with encodeValue_ obj VUndefined;
        Ok (VObject [("structValue", struct)])
    | VArray elems =>
        values ← array_map (λ v index, encodeValue_ v (VNumber (Z.of_nat index)))
                           elems 0%nat;
        Ok (VObject [("listValue", VObject [("values", VArray values)])])
    | _ =>
        stringify ← get options "stringify";
        if negb (truthy stringify)
        then Throw (Error ("Value of type " +:+ typeof value +:+ " not recognized."))
        else Ok (VObject [("stringValue", VString (String_ value))])
    end.

(** [GrpcService.objToStruct_]. *)
Definition objToStruct_ (obj : props) (options : jsval) : result jsval :=
  objToStruct_with encodeValue_ obj options.

(** [array.map(callback)] as a method call on an arbitrary value. *)
Definition call_map (callback : jsval → nat → result jsval) (array : jsval)
  : result jsval :=
  match array with
  | VArray elems => vs ← array_map callback elems 0%nat; Ok (VArray vs)
  | VUndefined => Throw (TypeError "Cannot read property 'map' of undefined")
  | VNull => Throw (TypeError "Cannot read property 'map' of null")
  | _ => Throw (TypeError "map is not a function")
  end.

(** [GrpcService.structToObj_], with the decoder it calls on each field as a
    parameter. *)
Definition structToObj_with (decodeValue : jsval → result jsval)
    (struct : jsval) : result jsval :=
  fields ← get struct "fields";
  convertedObject ← for_in (λ convertedObject prop value,
                              v ← decodeValue value;
                              Ok (set_prop convertedObject prop v))
                           (own_props fields) [];
  Ok (VObject convertedObject).

(** [GrpcService.decodeValue_], by recursion on a bound on the nesting still
    to be visited; [switch (value.kind)] compares with [===]. *)
Fixpoint decodeValue_fuel (fuel : nat) (value : jsval) : result jsval :=
  match fuel with
  | O => Throw (RangeError "Maximum call stack size exceeded")
  | S fuel =>
      kind ← get value "kind";
      if strict_eq_prim kind (VString "structValue") then
        structValue ← get value "structValue";
        structToObj_with (decodeValue_fuel fuel) structValue
      else if strict_eq_prim kind (VString "nullValue") then
        Ok VNull
      else if strict_eq_prim kind (VString "listValue") then
        listValue ← get value "listValue";
        values ← get listValue "values";
        call_map (λ v _, decodeValue_fuel fuel v) values
      else
        get value (String_ kind)
  end.

(** The number of nodes of a value: more nesting than that cannot be met. *)
Fixpoint weight (value : jsval) : nat :=
  match value with
  | VObject ps => S (list_sum (map (λ p, weight p.2) ps))
  | VArray elems => S (list_sum (map weight elems))
  | VString s => S (String.length s)
  | VBuffer bytes => S (length bytes)
  | _ => 1
  end.

Definition decodeValue_ (value : jsval) : result jsval :=
  decodeValue_fuel (weight value) value.

Definition structToObj_ (struct : jsval) : result jsval :=
  structToObj_with decodeValue_ struct.

(** *** What the protobuf runtime adds to a decoded message

    [google.protobuf.Value] declares its members as the alternatives of
    [oneof kind].  A message that arrives from the wire carries, besides the
    member that is set, a field [kind] holding that member's name: this is the
    shape the example in [structToObj_]'s documentation shows
    ([{kind: 'stringValue', stringValue: 'Stephen'}]).  [encodeValue_] writes
    the member alone.  [withKind] is that decoration, applied through a
    [Value] to the [Value]s it contains. *)
Fixpoint withKind (message : jsval) : jsval :=
  match message with
  | VObject [(member, payload)] =>
      let payload' :=
        match payload with
        | VObject [(name, VObject fields)] =>
            if String.eqb member "structValue" && String.eqb name "fields"
            then VObject [(name, VObject (map (λ p, (p.1, withKind p.2)) fields))]
            else payload
        | VObject [(name, VArray values)] =>
            if String.eqb member "listValue" && String.eqb name "values"
            then VObject [(name, VArray (map withKind values))]
            else payload
        | _ => payload
        end in
      VObject [("kind", VString member); (member, payload')]
  | _ => message
  end.

(** The same decoration on a [Struct] message. *)
Definition structWithKind (struct : jsval) : jsval :=
  match struct with
  | VObject [(name, VObject fields)] =>
      if String.eqb name "fields"
      then VObject [(name, VObject (map (λ p, (p.1, withKind p.2)) fields))]
      else struct
  | _ => struct
  end.

(** Values made of null, numbers, strings, booleans, buffers, plain objects
    and arrays only: no [undefined] and no value of another class anywhere,
    and no object lists a property twice. *)
Fixpoint plain (value : jsval) : bool :=
  match value with
  | VNull | VBool _ | VNumber _ | VString _ | VBuffer _ => true
  | VObject ps => bool_decide (NoDup ps.*1) && forallb (λ p, plain p.2) ps
  | VArray elems => forallb plain elems
  | VUndefined | VOther _ _ => false
  end.

(** The values [encodeValue_] has no branch for. *)
Definition unrecognized (value : jsval) : bool :=
  match value with
  | VUndefined | VOther _ _ => true
  | _ => false
  end.

(** ** The error table and the translator *)

Definition http (code : Z) (message : string) : jsval :=
  VObject [("code", VNumber code); ("message", VString message)].

(** The keys of an object literal are strings: [0:] is the key ["0"]. *)
Definition GRPC_ERROR_CODE_TO_HTTP : props :=
  [ ("0", http 200 "OK");
    ("1", http 499 "Client Closed Request");
    ("2", http 500 "Internal Server Error");
    ("3", http 400 "Bad Request");
    ("4", http 504 "Gateway Timeout");
    ("5", http 404 "Not Found");
    ("6", http 409 "Conflict");
    ("7", http 403 "Forbidden");
    ("8", http 429 "Too Many Requests");
    ("9", http 412 "Precondition Failed");
    ("10", http 409 "Conflict");
    ("11", http 400 "Bad Request");
    ("12", http 501 "Not Implemented");
    ("13", http 500 "Internal Server Error");
    ("14", http 503 "Service Unavailable");
    ("15", http 500 "Internal Server Error");
    ("16", http 401 "Unauthorized") ].

(** *** The [extend] package, deep mode

    [extend(true, target, options...)] visits the properties of each source
    in turn.  A property whose value is a plain object or an array is merged
    into a clone (the target's same-named object or array when it has one, a
    new one otherwise); any other value except [undefined] is assigned as it
    is; [undefined] is skipped. *)

(** [target[index] = v] on an array; the slots a write past the end leaves
    empty read as [undefined]. *)
Definition array_set (target : list jsval) (index : nat) (v : jsval) : list jsval :=
  if decide (index < length target)%nat then <[index := v]> target
  else (target ++ replicate (index - length target) VUndefined ++ [v])%list.

Definition extend_object_with (assigned : jsval → jsval → option jsval)
    (target options : props) : props :=
  fold_left (λ target p,
               match assigned (read target p.1) p.2 with
               | Some v => set_prop target p.1 v
               | None => target
               end)
            options target.

Definition extend_array_with (assigned : jsval → jsval → option jsval)
    (target options : list jsval) : list jsval :=
  (fold_left (λ st copy,
                (match assigned (default VUndefined (st.1 !! st.2)) copy with
                 | Some v => array_set st.1 st.2 v
                 | None => st.1
                 end, S st.2))
             options (target, 0%nat)).1.

(** What one turn of the loop assigns to [target[name]], given
    [src = target[name]] and [copy = options[name]]; [None] when it assigns
    nothing. *)
Fixpoint extend_assigned (src copy : jsval) {struct copy} : option jsval :=
  match copy with
  | VObject options =>
      let clone := match src with VObject t => t | _ => [] end in
      Some (VObject (extend_object_with extend_assigned clone options))
  | VArray options =>
      let clone := match src with VArray t => t | _ => [] end in
      Some (VArray (extend_array_with extend_assigned clone options))
  | VUndefined => None
  | _ => Some copy
  end.

(** [extend(true, target, source1, source2, ...)]. *)
Definition extend_deep (target : props) (sources : list props) : props :=
  fold_left (extend_object_with extend_assigned) sources target.

(** [GrpcService.getError_]: [null] is [None]. *)
Definition getError_ (err : props) : option props :=
  let entry := read GRPC_ERROR_CODE_TO_HTTP (String_ (read err "code")) in
  if truthy entry then Some (extend_deep [] [err; own_props entry]) else None.

(** ** The retry predicate *)

(** [array.indexOf(x)], which compares with [===]. *)
Fixpoint indexOf_from (array : list jsval) (x : jsval) (index : Z) : Z :=
  match array with
  | [] => -1
  | y :: rest => if strict_eq_prim y x then index else indexOf_from rest x (index + 1)
  end.
Definition indexOf (array : list jsval) (x : jsval) : Z := indexOf_from array x 0.

(** [GrpcService.shouldRetryRequest_]. *)
Definition shouldRetryRequest_ (response : jsval) : result bool :=
  code ← get response "code";
  Ok (indexOf [VNumber 429; VNumber 500; VNumber 502; VNumber 503] code >? -1).

(** ** The unary call path of [request]

    [request] compares the terminal response with [respError] by [===], so
    this part of the model keeps the identity of objects.  An object is either
    one the service stub handed to its callback or the one [getError_] built
    during a given attempt; [extend(true, {}, ...)] returns a new object each
    time, and the stub never sees it. *)
Inductive ref : Type :=
| FromStub (id : nat)
| FromGetError (attempt : nat).

#[global] Instance ref_eq_dec : EqDecision ref.
Proof. solve_decision. Defined.

Inductive rval : Type :=
| RUndefined
| RNull
| RObject (r : ref) (o : props).

Definition rtruthy (v : rval) : bool :=
  match v with RObject _ _ => true | _ => false end.

(** [a === b]: objects are equal when they are the same object. *)
Definition rstrict_eq (a b : rval) : bool :=
  match a, b with
  | RUndefined, RUndefined => true
  | RNull, RNull => true
  | RObject r1 _, RObject r2 _ => bool_decide (r1 = r2)
  | _, _ => false
  end.

Definition jsval_of (v : rval) : jsval :=
  match v with
  | RUndefined => VUndefined
  | RNull => VNull
  | RObject _ o => VObject o
  end.

(** What the stub passes to its callback. *)
Inductive stubval : Type :=
| SUndefined
| SNull
| SObject (id : nat) (o : props).

Definition of_stub (v : stubval) : rval :=
  match v with
  | SUndefined => RUndefined
  | SNull => RNull
  | SObject id o => RObject (FromStub id) o
  end.

(** [service[protoOpts.method](reqOpts, grpcOpts, callback)]: the [(err, resp)]
    the stub answers on each successive invocation, counted from 0. *)
Definition stub := nat → stubval * stubval.

(** What the final callback of [request] received, with the bookkeeping the
    statements below speak about. *)
Record outcome : Type := {
  callback_err : rval;
  callback_resp : rval;
  terminal_err : rval;       (* what the retry layer handed over *)
  terminal_resp : rval;
  respError : rval;          (* the variable of [request] at that moment *)
  invocations : nat          (* how often the stub was invoked *)
}.

(** [retryOpts.request]: one attempt.  Returns the new [respError] and the
    arguments of [onResponse]. *)
Definition attempt (service : stub) (n : nat) : rval * (rval * rval) :=
  let respError := RNull in
  let err := of_stub (service n).1 in
  let resp := of_stub (service n).2 in
  match err with
  | RObject _ e =>
      match getError_ e with
      | Some translated =>
          let respError := RObject (FromGetError n) translated in
          (respError, (RNull, respError))
      | None => (RNull, (err, resp))
      end
  | _ => (respError, (RNull, resp))
  end.

(** The callback [request] gives to the retry layer. *)
Definition request_callback (respError err resp : rval) : rval * rval :=
  if negb (rtruthy err) && rstrict_eq resp respError
  then (respError, RNull)
  else (err, resp).

(** The retry layer around the attempts.  [retry-request] is an external
    package; this is its unary mode as the specification describes the retry
    mechanism: an error passed to [onResponse] ends the call at once; a
    response is retried while attempts remain ([numAttempts <= opts.retries])
    and [shouldRetryFn(response)] holds; otherwise the call ends with that
    response.  [retries] counts the retries still allowed, [n] the attempts
    already made. *)
Fixpoint retryRequest (service : stub) (retries n : nat) : result outcome :=
  let '(respError, (err, response)) := attempt service n in
  let done :=
    let cb := request_callback respError err response in
    Ok {| callback_err := cb.1; callback_resp := cb.2;
          terminal_err := err; terminal_resp := response;
          respError := respError; invocations := S n |} in
  if rtruthy err then done
  else
    match retries with
    | O => done
    | S retries' =>
        retry ← shouldRetryRequest_ (jsval_of response);
        if retry : bool then retryRequest service retries' (S n) else done
    end.

(** The unary call once credentials and the stub are at hand. *)
Definition unary_call (service : stub) (maxRetries : nat) : result outcome :=
  retryRequest service maxRetries 0.

(** ** The instance: credential gate and service registry *)

(** [grpc.credentials.createInsecure()], or the channel credentials combined
    from [createSsl()] and the auth client the provider returned. *)
Inductive credentials : Type :=
| Insecure
| Combined (authClient : nat).

(** A stub built by [new proto[name](baseUrl, grpcCredentials)]; [serial]
    numbers the constructions and tells one instance from another. *)
Record ServiceInstance : Type := {
  stub_class : string;
  stub_baseUrl : string;
  stub_credentials : option credentials;
  stub_serial : nat
}.

#[global] Instance credentials_eq_dec : EqDecision credentials.
Proof. solve_decision. Defined.
#[global] Instance ServiceInstance_eq_dec : EqDecision ServiceInstance.
Proof. solve_decision. Defined.

(** The fields of a [GrpcService] the module reads and writes.  [protos] maps
    a proto service name to the loaded namespace, which maps a class name to
    its constructor (named by a string here). *)
Record GrpcService : Type := {
  baseUrl : string;
  service : string;
  maxRetries : nat;
  protos : gmap string (gmap string string);
  grpcCredentials : option credentials;
  activeServiceMap_ : gmap string ServiceInstance
}.

Definition set_grpcCredentials (this : GrpcService) (c : credentials) : GrpcService :=
  {| baseUrl := baseUrl this; service := service this;
     maxRetries := maxRetries this; protos := protos this;
     grpcCredentials := Some c;
     activeServiceMap_ := activeServiceMap_ this |}.

Definition set_activeService (this : GrpcService) (name : string)
    (instance : ServiceInstance) : GrpcService :=
  {| baseUrl := baseUrl this; service := service this;
     maxRetries := maxRetries this; protos := protos this;
     grpcCredentials := grpcCredentials this;
     activeServiceMap_ := <[name := instance]> (activeServiceMap_ this) |}.

(** The constructor, as far as these fields go: a custom endpoint gets
    insecure credentials at once. *)
Definition new_GrpcService (config_baseUrl config_service : string)
    (customEndpoint : bool) (options_maxRetries : nat)
    (loaded : gmap string (gmap string string)) : GrpcService :=
  {| baseUrl := config_baseUrl; service := config_service;
     maxRetries := options_maxRetries; protos := loaded;
     grpcCredentials := if customEndpoint then Some Insecure else None;
     activeServiceMap_ := ∅ |}.

(** [GrpcService.prototype.getService_].  [serial] counts the stubs built so
    far; the result carries the instance returned, the updated [this] and the
    updated count. *)
Definition getService_ (this : GrpcService) (serial : nat) (name : string)
  : result (ServiceInstance * GrpcService * nat) :=
  let proto :=
    match protos this !! name with
    | Some p => Some p
    | None => protos this !! service this
    end in
  match activeServiceMap_ this !! name with
  | Some instance => Ok (instance, this, serial)
  | None =>
      match proto with
      | None => Throw (TypeError ("Cannot read property '" +:+ name +:+ "' of undefined"))
      | Some p =>
          match p !! name with
          | None => Throw (TypeError "proto[protoOpts.service] is not a constructor")
          | Some class =>
              let instance :=
                {| stub_class := class; stub_baseUrl := baseUrl this;
                   stub_credentials := grpcCredentials this;
                   stub_serial := serial |} in
              Ok (instance, set_activeService this name instance, S serial)
          end
      end
  end.

(** *** [request] up to the hand-over to the retry layer

    Credential acquisition is asynchronous: [request] returns after calling
    the provider, and the provider's answer arrives as a later event.  The
    state of the world is the instance, the flag [GCLOUD_SANDBOX_ENV], the calls to
    [authClient.getAuthClient] made so far, the request that waits on each of
    them ([awaiting], by the ticket of the call), the number of stubs built,
    and what the callers have observed. *)
Record call : Type := {
  caller : nat;
  protoOpts_service : string;
  protoOpts_method : string
}.

Inductive effect : Type :=
| CallbackError (c : call) (err : props)          (* [callback(err)] *)
| Proceeds (c : call) (instance : ServiceInstance) (* reached the retry layer *)
| Thrown (c : call) (e : exn).

Record world : Type := {
  this : GrpcService;
  GCLOUD_SANDBOX_ENV : bool;
  getAuthClient_calls : nat;
  awaiting : gmap nat call;
  stubs_built : nat;
  effects : list effect
}.

(** What [authClient.getAuthClient] passes to its callback. *)
Inductive auth_answer : Type :=
| AuthError (err : props)
| AuthClient (authClient : nat).

(** [GrpcService.prototype.getGrpcCredentials_]: calls the provider; the
    request waits under the ticket of that call. *)
Definition getGrpcCredentials_ (w : world) (c : call) : world :=
  {| this := this w; GCLOUD_SANDBOX_ENV := GCLOUD_SANDBOX_ENV w;
     getAuthClient_calls := S (getAuthClient_calls w);
     awaiting := <[getAuthClient_calls w := c]> (awaiting w);
     stubs_built := stubs_built w; effects := effects w |}.

(** The part of [request] that runs once credentials are present, up to
    [retryRequest(...)]. *)
Definition proceed (w : world) (c : call) : world :=
  match getService_ (this w) (stubs_built w) (protoOpts_service c) with
  | Ok (instance, this', built) =>
      {| this := this'; GCLOUD_SANDBOX_ENV := GCLOUD_SANDBOX_ENV w;
         getAuthClient_calls := getAuthClient_calls w; awaiting := awaiting w;
         stubs_built := built;
         effects := (effects w ++ [Proceeds c instance])%list |}
  | Throw e =>
      {| this := this w; GCLOUD_SANDBOX_ENV := GCLOUD_SANDBOX_ENV w;
         getAuthClient_calls := getAuthClient_calls w; awaiting := awaiting w;
         stubs_built := stubs_built w;
         effects := (effects w ++ [Thrown c e])%list |}
  end.

(** [GrpcService.prototype.request]. *)
Definition request (w : world) (c : call) : world :=
  if GCLOUD_SANDBOX_ENV w then w
  else
    match grpcCredentials (this w) with
    | None => getGrpcCredentials_ w c
    | Some _ => proceed w c
    end.

(** The provider answers the call with ticket [ticket]: the function
    [request] passed to [getGrpcCredentials_] in that call runs.  It runs each
    time the provider calls it, so the ticket stays. *)
Definition getAuthClient_answers (w : world) (ticket : nat) (a : auth_answer)
  : world :=
  match awaiting w !! ticket with
  | None => w
  | Some c =>
      match a with
      | AuthError err =>
          {| this := this w; GCLOUD_SANDBOX_ENV := GCLOUD_SANDBOX_ENV w;
             getAuthClient_calls := getAuthClient_calls w;
             awaiting := awaiting w;
             stubs_built := stubs_built w;
             effects := (effects w ++ [CallbackError c err])%list |}
      | AuthClient authClient =>
          request
            {| this := set_grpcCredentials (this w) (Combined authClient);
               GCLOUD_SANDBOX_ENV := GCLOUD_SANDBOX_ENV w;
               getAuthClient_calls := getAuthClient_calls w;
               awaiting := awaiting w;
               stubs_built := stubs_built w; effects := effects w |}
            c
      end
  end.

Inductive event : Type :=
| Request (c : call)
| Answer (ticket : nat) (a : auth_answer).

Definition step (w : world) (ev : event) : world :=
  match ev with
  | Request c => request w c
  | Answer ticket a => getAuthClient_answers w ticket a
  end.

Definition run (w : world) (evs : list event) : world := fold_left step evs w.

Definition start (this0 : GrpcService) (sandbox_env : bool) : world :=
  {| this := this0; GCLOUD_SANDBOX_ENV := sandbox_env; getAuthClient_calls := 0;
     awaiting := ∅; stubs_built := 0; effects := [] |}.

(** ** Notions the statements use *)

(** [options.stringify], after [options = options || {}], as a condition. *)
Definition stringify_on (options : jsval) : bool :=
  match get (js_or options (VObject [])) "stringify" with
  | Ok v => truthy v
  | Throw _ => false
  end.

(** The one error the encoder throws. *)
Definition not_recognized (e : exn) : Prop :=
  ∃ t, e = Error ("Value of type " +:+ t +:+ " not recognized.").

(** The loop of [objToStruct_], started on any partly filled [fields]. *)
Definition encode_field (options : jsval) (fields : props) (prop : string)
    (value : jsval) : result props :=
  if is_undefined value then Ok fields
  else v ← encodeValue_ value options; Ok (set_prop fields prop v).

(** [e] is the encoding of [v] under any options; decorated with [kind] it
    decodes to [v]; as the encoder wrote it, it decodes to [undefined]. *)
Definition coded (v e : jsval) : Prop :=
  (∀ options, encodeValue_ v options = Ok e) ∧
  decodeValue_ (withKind e) = Ok v ∧
  decodeValue_ e = Ok VUndefined.

Definition decode_field (decode : jsval → jsval) : string * jsval → string * jsval :=
  λ p, (p.1, decode p.2).

(** The two property names that do not behave as ordinary own properties in
    the source.  The loops of [objToStruct_] and [structToObj_] call
    [obj.hasOwnProperty(prop)], which an own property of that name shadows;
    and an assignment to [__proto__] runs the setter [Object.prototype] has
    for it instead of adding a property. *)
Definition special_name (key : string) : bool :=
  String.eqb key "hasOwnProperty" || String.eqb key "__proto__".

(** An object none of whose own properties has such a name, *)
Definition ordinary_names (o : props) : bool :=
  forallb (λ p, negb (special_name p.1)) o.

(** and a value in which every object is of that kind. *)
Fixpoint ordinary (value : jsval) : bool :=
  match value with
  | VObject ps => forallb (λ p, negb (special_name p.1) && ordinary p.2) ps
  | VArray elems => forallb ordinary elems
  | _ => true
  end.


(** A stub that fails passes an error object; one that succeeds passes the
    response message, an object. *)
Definition answers_message (service : stub) : Prop :=
  ∀ n, rtruthy (of_stub (service n).1) = false →
       ∃ id o, (service n).2 = SObject id o.

(** A stub that fails twice with transport code 8 and then succeeds. *)
Definition flaky_stub : stub :=
  λ n, if (n <? 2)%nat
       then (SObject n [("code", VNumber 8)], SUndefined)
       else (SNull, SObject 7 [("ok", VBool true)]).

(** The class [getService_] would instantiate for a name:
    [proto[protoOpts.service]], where [proto] is [protos[protoOpts.service]]
    or else [protos[this.service]]. *)
Definition class_of (this : GrpcService) (name : string) : option string :=
  match protos this !! name with
  | Some p => p !! name
  | None => protos this !! service this ≫= (.!! name)
  end.

(** A Pub/Sub instance as the constructor leaves it. *)
Definition pubsub : GrpcService :=
  new_GrpcService "pubsub.googleapis.com" "pubsub" false 2
    {[ "pubsub" := {[ "Publisher" := "google.pubsub.v1.Publisher" ]} ]}.

Definition publisher_stub (cred : option credentials) : ServiceInstance :=
  {| stub_class := "google.pubsub.v1.Publisher";
     stub_baseUrl := "pubsub.googleapis.com";
     stub_credentials := cred; stub_serial := 0 |}.

Definition publish (n : nat) : call :=
  {| caller := n; protoOpts_service := "Publisher"; protoOpts_method := "publish" |}.

(** A string that begins like a decimal numeral. *)
Definition numeral (s : string) : bool :=
  match s with
  | String c _ => bool_decide (c ∈ String.list_ascii_of_string "-0123456789")
  | EmptyString => false
  end.


(** ** Notions of the further properties *)

(** A [Value] message as [encodeValue_] builds them: one member, named after
    the type of the value it holds; a struct holds [{fields: {...}}] with a
    [Value] under each name, a list holds [{values: [...]}] of [Value]s. *)
Fixpoint is_Value (message : jsval) : bool :=
  match message with
  | VObject [(member, payload)] =>
      match payload with
      | VNumber n =>
          String.eqb member "numberValue" ||
          (String.eqb member "nullValue" && (n =? 0))
      | VString _ => String.eqb member "stringValue"
      | VBool _ => String.eqb member "boolValue"
      | VBuffer _ => String.eqb member "blobValue"
      | VObject [(name, VObject fields)] =>
          String.eqb member "structValue" && String.eqb name "fields" &&
          bool_decide (NoDup fields.*1) && forallb (λ p, is_Value p.2) fields
      | VObject [(name, VArray values)] =>
          String.eqb member "listValue" && String.eqb name "values" &&
          forallb is_Value values
      | _ => false
      end
  | _ => false
  end.

(** A [Struct] message as [objToStruct_] builds them. *)
Definition is_Struct (struct : jsval) : bool :=
  match struct with
  | VObject [(name, VObject fields)] =>
      String.eqb name "fields" &&
      bool_decide (NoDup fields.*1) && forallb (λ p, is_Value p.2) fields
  | _ => false
  end.

(** Whether the encoder accepts a value: [stringify] tells whether a value of
    an unrecognized type is accepted where the value stands; inside an object
    or an array it never is, and an [undefined] property is passed over. *)
Fixpoint encodable (stringify : bool) (value : jsval) : bool :=
  match value with
  | VUndefined | VOther _ _ => stringify
  | VObject ps => forallb (λ p, is_undefined p.2 || encodable false p.2) ps
  | VArray elems => forallb (encodable false) elems
  | _ => true
  end.

Definition encodable_props (stringify : bool) (obj : props) : bool :=
  forallb (λ p, is_undefined p.2 || encodable stringify p.2) obj.

(** Whether a call returned. *)
Definition returns {A} (r : result A) : bool :=
  match r with Ok _ => true | Throw _ => false end.

(** The loop of [structToObj_]. *)
Definition decode_into (convertedObject : props) (prop : string) (value : jsval)
  : result props :=
  v ← decodeValue_ value; Ok (set_prop convertedObject prop v).

(** An attempt the retry layer would repeat: it ended without an error for
    the retry layer and [shouldRetryRequest_] holds of its response. *)
Definition retryable (a : rval * (rval * rval)) : Prop :=
  rtruthy a.2.1 = false ∧ shouldRetryRequest_ (jsval_of a.2.2) = Ok true.

(** A stub whose every answer is a message with [code: 503]. *)
Definition busy_stub : stub :=
  λ n, (SNull, SObject n [("code", VNumber 503); ("status", VString "busy")]).

(** What holds of an outcome recorded for an instance created with
    [config.customEndpoint]. *)
Definition insecure_outcome (e : effect) : Prop :=
  match e with
  | CallbackError _ _ => False
  | Proceeds _ instance => stub_credentials instance = Some Insecure
  | Thrown _ _ => True
  end.

Definition insecure_world (w : world) : Prop :=
  grpcCredentials (this w) = Some Insecure ∧ awaiting w = ∅ ∧
  getAuthClient_calls w = 0%nat ∧
  (∀ name instance, activeServiceMap_ (this w) !! name = Some instance →
     stub_credentials instance = Some Insecure) ∧
  Forall insecure_outcome (effects w).

(** The stubs of an instance [this0] are in order: each cached stub was built
    with credentials, for the base URL of the instance and from the class the
    loaded protos give for its name, and each request that reached the retry
    layer is served by the stub cached under its service name. *)
Definition stubs_in_order (this0 : GrpcService) (w : world) : Prop :=
  baseUrl (this w) = baseUrl this0 ∧ protos (this w) = protos this0 ∧
  service (this w) = service this0 ∧ maxRetries (this w) = maxRetries this0 ∧
  (∀ name instance, activeServiceMap_ (this w) !! name = Some instance →
     is_Some (stub_credentials instance) ∧ stub_baseUrl instance = baseUrl this0 ∧
     class_of this0 name = Some (stub_class instance)) ∧
  (∀ c instance, Proceeds c instance ∈ effects w →
     activeServiceMap_ (this w) !! protoOpts_service c = Some instance).

(** * Proofs *)

(** ** Generic facts *)

(** Induction on values, with the hypothesis for every property of an object
    and every element of an array. *)
Lemma jsval_ind (P : jsval → Prop) :
  P VUndefined → P VNull → (∀ b, P (VBool b)) → (∀ n, P (VNumber n)) →
  (∀ s, P (VString s)) → (∀ bytes, P (VBuffer bytes)) →
  (∀ ps, Forall (λ p, P p.2) ps → P (VObject ps)) →
  (∀ elems, Forall P elems → P (VArray elems)) →
  (∀ t s, P (VOther t s)) →
  ∀ v, P v.
Proof.
  intros Hu Hn Hb Hz Hs Hbuf Hobj Harr Hoth.
  fix IH 1. intros [ | | b | n | s | bytes | ps | elems | t s];
    [apply Hu | apply Hn | apply Hb | apply Hz | apply Hs | apply Hbuf | |
    | apply Hoth].
  - apply Hobj. induction ps as [|[k v] ps IHps]; constructor; [apply IH | exact IHps].
  - apply Harr. induction elems as [|v elems IHel]; constructor; [apply IH | exact IHel].
Qed.

Lemma bind_Ok {A B} (m : result A) (f : A → result B) b :
  m ≫= f = Ok b ↔ ∃ a, m = Ok a ∧ f a = Ok b.
Proof.
  destruct m as [a|e]; simpl; split.
  - eauto.
  - by intros (? & [= ->] & ?).
  - done.
  - by intros (? & ? & ?).
Qed.

Lemma bind_Throw {A B} (m : result A) (f : A → result B) e :
  m ≫= f = Throw e ↔ m = Throw e ∨ ∃ a, m = Ok a ∧ f a = Throw e.
Proof.
  destruct m as [a|e']; simpl; split.
  - eauto.
  - by intros [?|(? & [= ->] & ?)].
  - intros [= ->]; auto.
  - by intros [[= ->]|(? & ? & ?)].
Qed.

(** [H : (x ← m; Ok (f x)) = Throw e]: the exception comes from [m]. *)
Ltac thrown H := apply bind_Throw in H as [H|(? & _ & ?)]; [|done].

Lemma lookup_prop_Some key o v :
  lookup_prop key o = Some v → (key, v) ∈ o.
Proof.
  induction o as [|[k w] o IH]; simpl; [done|].
  destruct (String.eqb_spec k key) as [->|].
  - intros [= ->]. left.
  - intros. right. auto.
Qed.

Lemma lookup_prop_None key o :
  lookup_prop key o = None ↔ key ∉ keys o.
Proof.
  unfold keys. induction o as [|[k w] o IH]; simpl.
  - split; [intros _; apply not_elem_of_nil | done].
  - rewrite not_elem_of_cons. destruct (String.eqb_spec k key) as [->|Hne].
    + split; [done | by intros [? _]].
    + rewrite IH. split; [by split | by intros [_ ?]].
Qed.


Lemma keys_set_prop o key v :
  keys (set_prop o key v)
  = if bool_decide (key ∈ keys o) then keys o else (keys o ++ [key])%list.
Proof.
  unfold keys. induction o as [|[k w] o IH]; [done|].
  cbn [set_prop]. destruct (String.eqb_spec k key) as [->|Hne]; rewrite !fmap_cons; cbn [fst].
  - rewrite bool_decide_eq_true_2; [done | left].
  - rewrite IH. case_bool_decide as H1; case_bool_decide as H2; try done.
    + destruct H2. by right.
    + apply elem_of_cons in H2 as [->|]; done.
Qed.

Lemma elem_of_keys_set_prop o key v k :
  k ∈ keys (set_prop o key v) ↔ k = key ∨ k ∈ keys o.
Proof.
  rewrite keys_set_prop. case_bool_decide; [|rewrite elem_of_app, list_elem_of_singleton];
    naive_solver.
Qed.

Lemma lookup_set_prop o key v k :
  lookup_prop k (set_prop o key v) = if String.eqb key k then Some v else lookup_prop k o.
Proof.
  induction o as [|[k' w] o IH]; simpl.
  - by destruct (String.eqb_spec key k).
  - destruct (String.eqb_spec k' key) as [->|Hne]; simpl.
    + by destruct (String.eqb_spec key k).
    + rewrite IH. destruct (String.eqb_spec k' k) as [->|]; [|done].
      by destruct (String.eqb_spec key k) as [->|].
Qed.

Lemma NoDup_keys_fresh acc k ps :
  NoDup (keys acc ++ k :: keys ps) → k ∉ keys acc.
Proof.
  intros (_ & Hnd & _)%NoDup_app Hin. apply (Hnd _ Hin). left.
Qed.

Lemma NoDup_keys_step acc k (v : jsval) ps :
  NoDup (keys acc ++ k :: keys ps) → NoDup (keys (acc ++ [(k, v)])%list ++ keys ps).
Proof. unfold keys. by rewrite fmap_app, <-app_assoc. Qed.

Lemma set_prop_fresh o key v :
  key ∉ keys o → set_prop o key v = (o ++ [(key, v)])%list.
Proof.
  unfold keys. induction o as [|[k w] o IH]; simpl; [done|].
  rewrite not_elem_of_cons. intros [Hne Hin].
  destruct (String.eqb_spec k key) as [->|]; [done|]. by rewrite IH.
Qed.

(** ** The two loops *)

Section for_in.

Context {A : Type}.
Implicit Types (body : A → string → jsval → result A) (ps : props) (acc : A).

Lemma for_in_cons body k v ps acc :
  for_in body ((k, v) :: ps) acc = (acc' ← body acc k v; for_in body ps acc').
Proof. reflexivity. Qed.

Lemma for_in_Throw body ps acc e :
  for_in body ps acc = Throw e →
  ∃ acc' k v, (k, v) ∈ ps ∧ body acc' k v = Throw e.
Proof.
  revert acc. induction ps as [|[k v] ps IH]; intros acc; simpl; [done|].
  intros [H|(acc' & _ & H)]%bind_Throw.
  - exists acc, k, v. split; [left | done].
  - destruct (IH _ H) as (a & k' & v' & ? & ?). exists a, k', v'. split; [by right | done].
Qed.


Lemma for_in_ext body1 body2 ps acc :
  (∀ a k v, (k, v) ∈ ps → body1 a k v = body2 a k v) →
  for_in body1 ps acc = for_in body2 ps acc.
Proof.
  revert acc. induction ps as [|[k v] ps IH]; intros acc Hext; simpl; [done|].
  rewrite Hext by left. destruct (body2 acc k v); simpl; [|done].
  apply IH. intros. apply Hext. by right.
Qed.

End for_in.

Section array_map.

Implicit Types (callback : jsval → nat → result jsval) (elems : list jsval).

Lemma array_map_Throw callback elems index e :
  array_map callback elems index = Throw e →
  ∃ v i, v ∈ elems ∧ callback v i = Throw e.
Proof.
  revert index. induction elems as [|v elems IH]; intros index; simpl; [done|].
  intros [H|(y & _ & [H|(ys & _ & H)]%bind_Throw)]%bind_Throw; [| |done].
  - exists v, index. split; [left | done].
  - destruct (IH _ H) as (v' & i & ? & ?). exists v', i. split; [by right | done].
Qed.

Lemma array_map_element callback elems index v e :
  v ∈ elems → (∀ i, callback v i = Throw e) →
  ∃ e', array_map callback elems index = Throw e'.
Proof.
  intros Hin Hv. revert index.
  induction elems as [|x elems IH]; intros index; [by apply elem_of_nil in Hin|].
  simpl. apply elem_of_cons in Hin as [<-|Hin].
  - rewrite Hv. eauto.
  - destruct (callback x index); simpl; [|eauto].
    destruct (IH Hin (S index)) as [e' ->]. eauto.
Qed.

Lemma array_map_ext callback1 callback2 elems index :
  (∀ v i, v ∈ elems → callback1 v i = callback2 v i) →
  array_map callback1 elems index = array_map callback2 elems index.
Proof.
  revert index. induction elems as [|v elems IH]; intros index Hext; simpl; [done|].
  rewrite Hext by left. destruct (callback2 v index); simpl; [|done].
  rewrite IH; [done|]. intros. apply Hext. by right.
Qed.

End array_map.

(** ** The encoder *)

Lemma get_js_or options key :
  ∃ v, get (js_or options (VObject [])) key = Ok v.
Proof. destruct options; unfold js_or; simpl; try case_match; eauto. Qed.

Lemma js_or_idemp options :
  js_or (js_or options (VObject [])) (VObject []) = js_or options (VObject []).
Proof. unfold js_or. destruct (truthy options) eqn:E; [by rewrite E | done]. Qed.

Lemma encodeValue_object obj options :
  encodeValue_ (VObject obj) options
  = (struct ← objToStruct_ obj VUndefined; Ok (VObject [("structValue", struct)])).
Proof. reflexivity. Qed.

Lemma encodeValue_array elems options :
  encodeValue_ (VArray elems) options
  = (values ← array_map (λ v index, encodeValue_ v (VNumber (Z.of_nat index)))
                        elems 0%nat;
     Ok (VObject [("listValue", VObject [("values", VArray values)])])).
Proof. reflexivity. Qed.

Lemma encodeValue_else value options :
  unrecognized value = true →
  encodeValue_ value options
  = if stringify_on options
    then Ok (VObject [("stringValue", VString (String_ value))])
    else Throw (Error ("Value of type " +:+ typeof value +:+ " not recognized.")).
Proof.
  intros Hv. unfold stringify_on.
  destruct (get_js_or options "stringify") as [s Hs].
  destruct value; try discriminate Hv; simpl; rewrite Hs; simpl; by destruct (truthy s).
Qed.

(** Only the last branch reads [options], and it reads [stringify] alone. *)
Lemma encodeValue_options value options1 options2 :
  stringify_on options1 = stringify_on options2 →
  encodeValue_ value options1 = encodeValue_ value options2.
Proof.
  intros H. destruct value; try reflexivity; by rewrite !encodeValue_else, H.
Qed.

Lemma stringify_on_index index : stringify_on (VNumber index) = false.
Proof. unfold stringify_on, js_or. simpl. by destruct (index =? 0). Qed.

Lemma encodeValue_js_or value options :
  encodeValue_ value (js_or options (VObject [])) = encodeValue_ value options.
Proof. apply encodeValue_options. unfold stringify_on. by rewrite js_or_idemp. Qed.

(** The encoder throws nothing but its own error. *)
Lemma encodeValue_Throw value options e :
  encodeValue_ value options = Throw e → not_recognized e.
Proof.
  revert options. induction value as [ | | | | | |ps IH|elems IH| ] using jsval_ind;
    intros options; try discriminate.
  - rewrite encodeValue_else by done. case_match; [done|]. intros [= <-]. by eexists.
  - rewrite encodeValue_object. intros [H|(? & _ & ?)]%bind_Throw; [|done].
    unfold objToStruct_, objToStruct_with in H.
    thrown H.
    apply for_in_Throw in H as (acc & k & v & Hin & H).
    rewrite Forall_forall in IH. destruct (is_undefined v); [done|].
    thrown H.
    by apply (IH _ Hin) in H.
  - rewrite encodeValue_array. intros [H|(? & _ & ?)]%bind_Throw; [|done].
    apply array_map_Throw in H as (v & i & Hin & H).
    rewrite Forall_forall in IH. by apply (IH _ Hin) in H.
  - rewrite encodeValue_else by done. case_match; [done|]. intros [= <-]. by eexists.
Qed.

Lemma elem_of_set_prop o key v p :
  p ∈ set_prop o key v → p = (key, v) ∨ p ∈ o.
Proof.
  induction o as [|[k w] o IH]; simpl.
  - intros ->%list_elem_of_singleton. by left.
  - destruct (String.eqb_spec k key) as [->|Hne].
    + intros [->|?]%elem_of_cons; [by left | right; by right].
    + intros [->|[->|?]%IH]%elem_of_cons; [right; left | by left | right; by right].
Qed.

Lemma objToStruct_unfold obj options :
  objToStruct_ obj options
  = (fields ← for_in (encode_field (js_or options (VObject []))) obj [];
     Ok (VObject [("fields", VObject fields)])).
Proof. reflexivity. Qed.

Lemma for_in_encode_Ok options ps acc fields :
  for_in (encode_field options) ps acc = Ok fields →
  (∀ k, k ∈ keys fields ↔ k ∈ keys acc ∨ ∃ v, (k, v) ∈ ps ∧ v ≠ VUndefined) ∧
  (∀ k e, (k, e) ∈ fields →
     (k, e) ∈ acc ∨ ∃ v, (k, v) ∈ ps ∧ v ≠ VUndefined ∧ encodeValue_ v options = Ok e) ∧
  (∀ k v, (k, v) ∈ ps → v ≠ VUndefined → ∃ e, encodeValue_ v options = Ok e).
Proof.
  revert acc. induction ps as [|[k v] ps IH]; intros acc; simpl.
  - intros [= ->]. split_and!.
    + intros k. split; [by left|]. intros [?|(? & []%elem_of_nil & _)]; done.
    + intros k e ?. by left.
    + by intros k v ?%elem_of_nil.
  - intros (acc' & Hbody & Hrest)%bind_Ok.
    destruct (IH _ Hrest) as (Hkeys & Hvals & Hall). clear IH Hrest.
    unfold encode_field in Hbody. destruct v; simpl in Hbody;
      try (apply bind_Ok in Hbody as (e0 & Henc & [= <-]));
      try (injection Hbody as <-).
    all: split_and!.
    all: try (intros k0; rewrite Hkeys, ?elem_of_keys_set_prop;
              setoid_rewrite elem_of_cons; naive_solver).
    all: try (intros k0 e Hin; apply Hvals in Hin as [Hin|Hin];
              [try apply elem_of_set_prop in Hin as [[= -> ->]|Hin]|];
              setoid_rewrite elem_of_cons; naive_solver).
    all: intros k0 v0 [[= -> ->]|Hin]%elem_of_cons Hv0; by eauto.
Qed.

Lemma for_in_encode_Throw options ps acc e :
  for_in (encode_field options) ps acc = Throw e →
  ∃ k v, (k, v) ∈ ps ∧ v ≠ VUndefined ∧ encodeValue_ v options = Throw e.
Proof.
  intros (acc' & k & v & Hin & H)%for_in_Throw. exists k, v.
  unfold encode_field in H. destruct (is_undefined v) eqn:Hu; [done|].
  thrown H.
  split_and!; [done | by intros -> | done].
Qed.

(** ** C7: which properties [objToStruct_] writes *)

(** C7, amended.  Let [obj] be an object in which no property, at any depth,
    is named [hasOwnProperty] or [__proto__].  [objToStruct_(obj, options)]
    throws exactly when the encoding of one of [obj]'s properties that is not
    [undefined] throws, and the exception is that one.  Otherwise it returns
    [{fields: ...}] where [fields] has exactly the properties of [obj] whose
    value is not [undefined], each holding the encoding of such a value; a
    property set to [undefined] is left out, not written as a null leaf. *)
Theorem objToStruct_fields (obj : props) (options : jsval) :
  ordinary (VObject obj) = true →
  match objToStruct_ obj options with
  | Ok struct =>
      ∃ fields, struct = VObject [("fields", VObject fields)] ∧
        (∀ k, k ∈ keys fields ↔ ∃ v, (k, v) ∈ obj ∧ v ≠ VUndefined) ∧
        (∀ k e, (k, e) ∈ fields →
           ∃ v, (k, v) ∈ obj ∧ v ≠ VUndefined ∧ encodeValue_ v options = Ok e) ∧
        (∀ k v, (k, v) ∈ obj → v ≠ VUndefined → ∃ e, encodeValue_ v options = Ok e)
  | Throw e =>
      ∃ k v, (k, v) ∈ obj ∧ v ≠ VUndefined ∧ encodeValue_ v options = Throw e
  end.
Proof.
  intros _. rewrite objToStruct_unfold.
  destruct (for_in (encode_field _) obj []) as [fields|e] eqn:Hloop; simpl.
  - apply for_in_encode_Ok in Hloop as (Hkeys & Hvals & Hall).
    setoid_rewrite encodeValue_js_or in Hvals.
    setoid_rewrite encodeValue_js_or in Hall.
    exists fields. split_and!; [done | | | done].
    + intros k. rewrite Hkeys. split; [|by right].
      by intros [?%elem_of_nil|?].
    + intros k e Hin. by destruct (Hvals _ _ Hin) as [?%elem_of_nil|?].
  - apply for_in_encode_Throw in Hloop. by setoid_rewrite encodeValue_js_or in Hloop.
Qed.

Lemma objToStruct_fields_witness :
  match objToStruct_ [("name", VString "Stephen"); ("age", VUndefined)] (VObject []) with
  | Ok struct =>
      ∃ fields, struct = VObject [("fields", VObject fields)] ∧
        (∀ k, k ∈ keys fields
              ↔ ∃ v, (k, v) ∈ [("name", VString "Stephen"); ("age", VUndefined)] ∧
                     v ≠ VUndefined) ∧
        (∀ k e, (k, e) ∈ fields →
           ∃ v, (k, v) ∈ [("name", VString "Stephen"); ("age", VUndefined)] ∧
                v ≠ VUndefined ∧ encodeValue_ v (VObject []) = Ok e) ∧
        (∀ k v, (k, v) ∈ [("name", VString "Stephen"); ("age", VUndefined)] →
           v ≠ VUndefined → ∃ e, encodeValue_ v (VObject []) = Ok e)
  | Throw e =>
      ∃ k v, (k, v) ∈ [("name", VString "Stephen"); ("age", VUndefined)] ∧
             v ≠ VUndefined ∧ encodeValue_ v (VObject []) = Throw e
  end.
Proof.
  exact (objToStruct_fields [("name", VString "Stephen"); ("age", VUndefined)]
           (VObject []) eq_refl).
Defined.

(** C7 as stated fails: an object with a property the encoder has no branch
    for yields no struct at all. *)
Lemma objToStruct_fields_counterexample :
  objToStruct_ [("when", VOther "object" "Thu Jan 01 1970")] (VObject [])
  = Throw (Error "Value of type object not recognized.").
Proof. reflexivity. Qed.



(** ** C8: values of an unrecognized type *)

(** C8.  For a value that is none of null, number, string, boolean, buffer,
    object or array, [encodeValue_] throws "Value of type ... not recognized."
    when called without options or with options whose [stringify] is absent
    or falsy, and returns the string leaf [{stringValue: String(value)}] when
    [options.stringify] is true. *)
Theorem encodeValue_unrecognized (value : jsval) (options : props) :
  unrecognized value = true →
  encodeValue_ value VUndefined
    = Throw (Error ("Value of type " +:+ typeof value +:+ " not recognized.")) ∧
  encodeValue_ value (VObject options)
    = if truthy (read options "stringify")
      then Ok (VObject [("stringValue", VString (String_ value))])
      else Throw (Error ("Value of type " +:+ typeof value +:+ " not recognized.")).
Proof.
  intros Hv. by rewrite !encodeValue_else.
Qed.

Lemma encodeValue_unrecognized_witness :
  encodeValue_ (VOther "function" "function () {}") VUndefined
    = Throw (Error "Value of type function not recognized.") ∧
  encodeValue_ (VOther "function" "function () {}") (VObject [("stringify", VBool true)])
    = Ok (VObject [("stringValue", VString "function () {}")]).
Proof.
  exact (encodeValue_unrecognized (VOther "function" "function () {}")
           [("stringify", VBool true)] eq_refl).
Defined.

(** ** C9: [stringify] does not reach the elements of an array *)

(** C9.  The elements of an array are encoded by
    [value.map(GrpcService.encodeValue_)], so each is encoded with its index
    where the options would be, and an index has no [stringify]: the encoding
    of an array is the same under any options, and it throws the
    "not recognized" error as soon as some element is of an unrecognized
    type, even when the call was made with [stringify] set. *)
Theorem encodeValue_array_ignores_stringify
    (elems : list jsval) (options : jsval) (v : jsval) :
  v ∈ elems → unrecognized v = true →
  encodeValue_ (VArray elems) options = encodeValue_ (VArray elems) VUndefined ∧
  ∃ e, not_recognized e ∧ encodeValue_ (VArray elems) options = Throw e.
Proof.
  intros Hin Hv. split; [done|].
  assert (∃ e, encodeValue_ (VArray elems) options = Throw e) as [e He].
  { rewrite encodeValue_array.
    destruct (array_map_element
                (λ v index, encodeValue_ v (VNumber (Z.of_nat index))) elems 0%nat v
                (Error ("Value of type " +:+ typeof v +:+ " not recognized.")) Hin)
      as [e ->]; [|by eauto].
    intros i. by rewrite encodeValue_else, stringify_on_index. }
  exists e. split; [by eapply encodeValue_Throw | done].
Qed.

Lemma encodeValue_array_ignores_stringify_witness :
  ∃ e, not_recognized e ∧
    encodeValue_ (VArray [VNumber 1; VOther "function" "function () {}"])
                 (VObject [("stringify", VBool true)]) = Throw e.
Proof.
  refine (proj2 (encodeValue_array_ignores_stringify
                   [VNumber 1; VOther "function" "function () {}"]
                   (VObject [("stringify", VBool true)])
                   (VOther "function" "function () {}") _ eq_refl)).
  right. left.
Defined.

(** ** C10: [stringify] does not reach nested objects *)



(** ** The decoder *)

Lemma weight_pos value : (0 < weight value)%nat.
Proof. destruct value; simpl; lia. Qed.

Lemma elem_of_list_sum {A} (f : A → nat) (l : list A) x :
  x ∈ l → (f x ≤ list_sum (map f l))%nat.
Proof.
  induction l as [|y l IH]; [by intros ?%elem_of_nil|].
  intros [->|?%IH]%elem_of_cons; simpl; lia.
Qed.

Lemma get_size o key x :
  inherited key = VUndefined →
  get o key = Ok x → x = VUndefined ∨ (weight x < weight o)%nat.
Proof.
  intros Hkey.
  destruct o as [ | | | | | |ps| | ]; simpl; try (intros [= <-]; by left); try done.
  unfold read. rewrite Hkey.
  destruct (lookup_prop key ps) as [y|] eqn:Hy; simpl; intros [= <-]; [right | by left].
  apply lookup_prop_Some in Hy.
  apply (elem_of_list_sum (λ p, weight p.2)) in Hy. simpl in Hy. lia.
Qed.

Ltac get_size H := apply get_size in H; [|reflexivity].

Lemma length_list_ascii_of_string s :
  length (String.list_ascii_of_string s) = String.length s.
Proof. induction s; simpl; congruence. Qed.

Lemma own_props_size o k x :
  (k, x) ∈ own_props o → (weight x ≤ weight o)%nat.
Proof.
  destruct o as [ | | | |s|bytes|ps|elems| ]; simpl;
    try (by intros ?%elem_of_nil); unfold index_props.
  - intros (i & c & [= -> ->] & Hi)%elem_of_lookup_imap.
    apply lookup_lt_Some in Hi. rewrite length_list_ascii_of_string in Hi.
    simpl. lia.
  - intros (i & c & [= -> ->] & Hi)%elem_of_lookup_imap.
    apply lookup_lt_Some in Hi. simpl. lia.
  - intros Hin. apply (elem_of_list_sum (λ p, weight p.2)) in Hin. simpl in Hin. lia.
  - intros (i & c & [= -> ->] & Hi)%elem_of_lookup_imap.
    apply list_elem_of_lookup_2 in Hi.
    apply (elem_of_list_sum weight) in Hi. simpl. lia.
Qed.

Lemma structToObj_with_ext decode1 decode2 struct :
  (∀ v, (weight v < weight struct)%nat → decode1 v = decode2 v) →
  structToObj_with decode1 struct = structToObj_with decode2 struct.
Proof.
  intros Hext. unfold structToObj_with.
  destruct (get struct "fields") as [fields|] eqn:Hf; simpl; [|done].
  erewrite for_in_ext; [done|]. intros a k v Hin. simpl.
  rewrite Hext; [done|].
  get_size Hf; destruct Hf as [->|?]; [by apply elem_of_nil in Hin|].
  apply own_props_size in Hin. lia.
Qed.

Lemma call_map_ext callback1 callback2 array :
  (∀ v i, (weight v < weight array)%nat → callback1 v i = callback2 v i) →
  call_map callback1 array = call_map callback2 array.
Proof.
  intros Hext. destruct array as [ | | | | | | |elems| ]; try done. simpl.
  erewrite array_map_ext; [done|]. intros v i Hin. apply Hext.
  apply (elem_of_list_sum weight) in Hin. simpl. lia.
Qed.

(** Fuel beyond the weight of the value changes nothing. *)
Lemma decodeValue_fuel_stable n m value :
  (weight value ≤ n)%nat → (weight value ≤ m)%nat →
  decodeValue_fuel n value = decodeValue_fuel m value.
Proof.
  revert m value. induction n as [|n IH]; intros m value Hn Hm.
  { pose proof (weight_pos value). lia. }
  destruct m as [|m]; [pose proof (weight_pos value); lia|]. simpl.
  destruct (get value "kind") as [kind|]; simpl; [|done].
  repeat case_match; try done.
  - destruct (get value "structValue") as [sv|] eqn:Hsv; simpl; [|done].
    apply structToObj_with_ext. intros v Hv. apply IH.
    all: get_size Hsv; destruct Hsv as [->|?]; simpl in *; lia.
  - destruct (get value "listValue") as [lv|] eqn:Hlv; simpl; [|done].
    destruct (get lv "values") as [vs|] eqn:Hvs; simpl; [|done].
    apply call_map_ext. intros v _ Hv. apply IH.
    all: get_size Hvs; destruct Hvs as [->|?]; simpl in *; [lia|].
    all: get_size Hlv; destruct Hlv as [->|?]; simpl in *; lia.
Qed.

Lemma decodeValue_fuel_enough n value :
  (weight value ≤ n)%nat → decodeValue_fuel n value = decodeValue_ value.
Proof. intros. by apply decodeValue_fuel_stable. Qed.

(** [decodeValue_] satisfies the equation the source states. *)
Lemma decodeValue_unfold value :
  decodeValue_ value
  = (kind ← get value "kind";
     if strict_eq_prim kind (VString "structValue") then
       structValue ← get value "structValue"; structToObj_ structValue
     else if strict_eq_prim kind (VString "nullValue") then Ok VNull
     else if strict_eq_prim kind (VString "listValue") then
       listValue ← get value "listValue";
       values ← get listValue "values";
       call_map (λ v _, decodeValue_ v) values
     else get value (String_ kind)).
Proof.
  unfold decodeValue_ at 1. pose proof (weight_pos value).
  destruct (weight value) as [|n] eqn:Hsize; [lia|]. simpl.
  destruct (get value "kind") as [kind|]; simpl; [|done].
  repeat case_match; try done.
  - destruct (get value "structValue") as [sv|] eqn:Hsv; simpl; [|done].
    apply structToObj_with_ext. intros v Hv. apply decodeValue_fuel_enough.
    get_size Hsv; destruct Hsv as [->|?]; simpl in *; lia.
  - destruct (get value "listValue") as [lv|] eqn:Hlv; simpl; [|done].
    destruct (get lv "values") as [vs|] eqn:Hvs; simpl; [|done].
    apply call_map_ext. intros v _ Hv. apply decodeValue_fuel_enough.
    get_size Hvs; destruct Hvs as [->|?]; simpl in *; [lia|].
    get_size Hlv; destruct Hlv as [->|?]; simpl in *; lia.
Qed.

(** In particular the bound on the nesting is never reached. *)
Lemma decodeValue_fuel_no_RangeError n value msg :
  (weight value ≤ n)%nat → decodeValue_fuel n value ≠ Throw (RangeError msg).
Proof.
  revert value. induction n as [|n IH]; intros value Hn.
  { pose proof (weight_pos value). lia. }
  simpl. intros [H|(kind & Hkind & H)]%bind_Throw; [by destruct value|].
  repeat case_match; try done.
  - apply bind_Throw in H as [H|(sv & Hsv & H)]; [by destruct value|].
    unfold structToObj_with in H.
    apply bind_Throw in H as [H|(fields & Hf & H)]; [by destruct sv|].
    thrown H.
    apply for_in_Throw in H as (acc & k & v & Hin & H).
    thrown H.
    apply IH in H; [done|].
    get_size Hf; destruct Hf as [->|?]; [by apply elem_of_nil in Hin|].
    apply own_props_size in Hin.
    get_size Hsv; destruct Hsv as [->|?]; simpl in *; lia.
  - apply bind_Throw in H as [H|(lv & Hlv & H)]; [by destruct value|].
    apply bind_Throw in H as [H|(vs & Hvs & H)]; [by destruct lv|].
    destruct vs as [ | | | | | | |elems| ]; try done. simpl in H.
    thrown H.
    apply array_map_Throw in H as (v & i & Hin & H).
    apply IH in H; [done|].
    apply (elem_of_list_sum weight) in Hin.
    get_size Hvs; destruct Hvs as [?|?]; [done|].
    get_size Hlv; destruct Hlv as [->|?]; simpl in *; lia.
  - by destruct value.
Qed.

Lemma decodeValue_no_RangeError value msg :
  decodeValue_ value ≠ Throw (RangeError msg).
Proof. by apply decodeValue_fuel_no_RangeError. Qed.

(** ** C1: decoding what the encoder wrote *)

Lemma structToObj_unfold fields :
  structToObj_ (VObject [("fields", VObject fields)])
  = (convertedObject ← for_in (λ acc prop value,
                                 v ← decodeValue_ value; Ok (set_prop acc prop v))
                              fields [];
     Ok (VObject convertedObject)).
Proof. reflexivity. Qed.

Lemma encode_field_Ok options acc k v e :
  encodeValue_ v options = Ok e → v ≠ VUndefined →
  encode_field options acc k v = Ok (set_prop acc k e).
Proof. intros He Hv. unfold encode_field. destruct v; try done; by rewrite He. Qed.

Lemma for_in_encode_coded options ps fields acc :
  Forall2 (λ p f, p.1 = f.1 ∧ coded p.2 f.2) ps fields →
  NoDup (keys acc ++ keys ps) →
  for_in (encode_field options) ps acc = Ok (acc ++ fields)%list.
Proof.
  intros Hc. revert acc.
  induction Hc as [|[k v] [k' e] ps fields [Hk (Henc & _ & _)] _ IH]; intros acc Hnd.
  - by rewrite app_nil_r.
  - simpl in Hk, Henc, Hnd. subst k'. rewrite for_in_cons.
    rewrite (encode_field_Ok _ _ _ _ e); [|done|].
    2: { intros ->. by specialize (Henc VUndefined). }
    simpl. rewrite set_prop_fresh by (by eapply NoDup_keys_fresh).
    rewrite IH; [by rewrite <-app_assoc | by apply NoDup_keys_step].
Qed.

Lemma for_in_decode_coded (decorate : jsval → jsval) ps fields acc :
  Forall2 (λ p f, p.1 = f.1 ∧ decodeValue_ (decorate f.2) = Ok p.2) ps fields →
  NoDup (keys acc ++ keys ps) →
  for_in (λ acc prop value, v ← decodeValue_ value; Ok (set_prop acc prop v))
         (map (decode_field decorate) fields) acc
  = Ok (acc ++ ps)%list.
Proof.
  intros Hc. revert acc.
  induction Hc as [|[k v] [k' e] ps fields [Hk Hdec] _ IH]; intros acc Hnd.
  - by rewrite app_nil_r.
  - simpl in *. subst k'. rewrite Hdec. simpl.
    rewrite set_prop_fresh by (by eapply NoDup_keys_fresh).
    rewrite IH; [by rewrite <-app_assoc | by apply NoDup_keys_step].
Qed.

Lemma array_map_encode_coded elems es index :
  Forall2 coded elems es →
  array_map (λ v i, encodeValue_ v (VNumber (Z.of_nat i))) elems index = Ok es.
Proof.
  intros Hc. revert index.
  induction Hc as [|v e elems es (Henc & _ & _) _ IH]; intros index; [done|].
  simpl. rewrite Henc. simpl. by rewrite IH.
Qed.

Lemma array_map_decode_coded (decorate : jsval → jsval) elems es index :
  Forall2 (λ v e, decodeValue_ (decorate e) = Ok v) elems es →
  array_map (λ v _, decodeValue_ v) (map decorate es) index = Ok elems.
Proof.
  intros Hc. revert index.
  induction Hc as [|v e elems es Hdec _ IH]; intros index; [done|].
  simpl. rewrite Hdec. simpl. by rewrite IH.
Qed.

Lemma Forall_exists_Forall2 {A B} (R : A → B → Prop) (l : list A) :
  Forall (λ x, ∃ y, R x y) l → ∃ k, Forall2 R l k.
Proof.
  induction 1 as [|x l [y Hy] _ [k Hk]]; [by exists [] | exists (y :: k); by constructor].
Qed.

Lemma encodeValue_coded value :
  plain value = true → ∃ e, coded value e.
Proof.
  induction value as [ | | | | | |ps IH|elems IH| ] using jsval_ind;
    intros Hplain; try discriminate Hplain.
  - exists (VObject [("nullValue", VNumber 0)]). by split_and!.
  - exists (VObject [("boolValue", VBool b)]). by split_and!.
  - exists (VObject [("numberValue", VNumber n)]). by split_and!.
  - exists (VObject [("stringValue", VString s)]). by split_and!.
  - exists (VObject [("blobValue", VBuffer bytes)]). by split_and!.
  - simpl in Hplain. apply andb_prop in Hplain as [Hnd Hall].
    apply bool_decide_eq_true in Hnd. rewrite forallb_forall in Hall.
    assert (∃ fields, Forall2 (λ p f, p.1 = f.1 ∧ coded p.2 f.2) ps fields)
      as [fields Hc].
    { apply Forall_exists_Forall2. rewrite Forall_forall in IH |- *.
      intros [k v] Hin. destruct (IH _ Hin) as [e He].
      { apply Hall. by apply list_elem_of_In. }
      by exists (k, e). }
    exists (VObject [("structValue", VObject [("fields", VObject fields)])]).
    split_and!.
    + intros options. rewrite encodeValue_object, objToStruct_unfold.
      by rewrite (for_in_encode_coded _ ps fields []).
    + rewrite decodeValue_unfold. cbn -[structToObj_].
      change (map _ fields) with (map (decode_field withKind) fields).
      rewrite structToObj_unfold, (for_in_decode_coded withKind ps fields []); [done| |done].
      eapply Forall2_impl; [exact Hc|]. by intros ?? (? & _ & ? & _).
    + by rewrite decodeValue_unfold.
  - simpl in Hplain. rewrite forallb_forall in Hplain.
    assert (∃ es, Forall2 coded elems es) as [es Hc].
    { apply Forall_exists_Forall2. rewrite Forall_forall in IH |- *.
      intros v Hin. apply (IH _ Hin), Hplain. by apply list_elem_of_In. }
    exists (VObject [("listValue", VObject [("values", VArray es)])]).
    split_and!.
    + intros options. rewrite encodeValue_array.
      by rewrite (array_map_encode_coded elems es).
    + rewrite decodeValue_unfold. cbn -[decodeValue_].
      rewrite (array_map_decode_coded withKind elems es); [done|].
      eapply Forall2_impl; [exact Hc|]. by intros ?? (_ & ? & _).
    + by rewrite decodeValue_unfold.
Qed.

(** C1, amended.  Let [v] be an object made of null, number, string, boolean,
    buffer, plain-object and array values only, with no [undefined] anywhere
    and no property, at any depth, named [hasOwnProperty] or [__proto__].
    Then [objToStruct_(v, {})] returns a struct, and decoding that struct
    returns [v] once every encoded leaf carries the [kind] field naming its
    member, as the protobuf runtime adds to a message it has decoded.
    Decoding the struct as the encoder wrote it, without [kind], returns an
    object with the properties of [v], each [undefined]. *)
Theorem structToObj_objToStruct (v : props) :
  plain (VObject v) = true → ordinary (VObject v) = true →
  ∃ struct,
    objToStruct_ v (VObject []) = Ok struct ∧
    structToObj_ (structWithKind struct) = Ok (VObject v) ∧
    structToObj_ struct = Ok (VObject (map (λ p, (p.1, VUndefined)) v)).
Proof.
  intros Hplain _. pose proof Hplain as Hnd. simpl in Hnd.
  apply andb_prop in Hnd as [Hnd _]. apply bool_decide_eq_true in Hnd.
  pose proof Hplain as Hall. simpl in Hall. apply andb_prop in Hall as [_ Hall].
  rewrite forallb_forall in Hall.
  assert (∃ fields, Forall2 (λ p f, p.1 = f.1 ∧ coded p.2 f.2) v fields) as [fields Hc].
  { apply Forall_exists_Forall2, Forall_forall. intros [k x] Hin.
    destruct (encodeValue_coded x) as [ex Hex].
    { apply (Hall (k, x)). by apply list_elem_of_In. }
    by exists (k, ex). }
  exists (VObject [("fields", VObject fields)]). split_and!.
  - by rewrite objToStruct_unfold, (for_in_encode_coded _ v fields []).
  - cbn -[structToObj_].
    change (map _ fields) with (map (decode_field withKind) fields).
    rewrite structToObj_unfold, (for_in_decode_coded withKind v fields []); [done| |done].
    eapply Forall2_impl; [exact Hc|]. by intros ?? (? & _ & ? & _).
  - rewrite structToObj_unfold.
    replace fields with (map (decode_field id) fields) at 1.
    2: { rewrite <-(map_id fields) at 2. apply map_ext. by intros []. }
    rewrite (for_in_decode_coded id (map (λ p, (p.1, VUndefined)) v) fields []); [done| |].
    + apply Forall2_fmap_l. eapply Forall2_impl; [exact Hc|].
      by intros ?? (? & _ & _ & ?).
    + simpl. unfold keys. rewrite <-list_fmap_compose.
      by replace (fst ∘ _) with (fst : string * jsval → string).
Qed.

Lemma structToObj_objToStruct_witness :
  ∃ struct,
    objToStruct_ [("name", VString "Stephen"); ("tags", VArray [VNull; VBool true])]
                 (VObject []) = Ok struct ∧
    structToObj_ (structWithKind struct)
      = Ok (VObject [("name", VString "Stephen"); ("tags", VArray [VNull; VBool true])]) ∧
    structToObj_ struct
      = Ok (VObject [("name", VUndefined); ("tags", VUndefined)]).
Proof.
  exact (structToObj_objToStruct
           [("name", VString "Stephen"); ("tags", VArray [VNull; VBool true])]
           eq_refl eq_refl).
Defined.

(** C1 as stated fails: the encoder writes no [kind], the decoder finds
    [value.kind] undefined and returns [value[undefined]]. *)
Lemma structToObj_objToStruct_counterexample :
  ∃ struct,
    objToStruct_ [("a", VNumber 1)] (VObject []) = Ok struct ∧
    structToObj_ struct = Ok (VObject [("a", VUndefined)]) ∧
    structToObj_ struct ≠ Ok (VObject [("a", VNumber 1)]).
Proof.
  exists (VObject [("fields", VObject [("a", VObject [("numberValue", VNumber 1)])])]).
  by split_and!.
Qed.

(** ** C2: the retry predicate *)

Lemma indexOf_retry_codes code :
  (indexOf [VNumber 429; VNumber 500; VNumber 502; VNumber 503] code >? -1) = true
  ↔ code ∈ [VNumber 429; VNumber 500; VNumber 502; VNumber 503].
Proof.
  unfold indexOf. rewrite !elem_of_cons, elem_of_nil.
  destruct code as [ | | |n| | | | | ];
    try (split; [done | by intros [?|[?|[?|[?|[]]]]]]).
  cbn [indexOf_from strict_eq_prim].
  destruct (Z.eqb_spec 429 n) as [<-|]; [split; [by left | done]|].
  destruct (Z.eqb_spec 500 n) as [<-|]; [split; [right; by left | done]|].
  destruct (Z.eqb_spec 502 n) as [<-|]; [split; [do 2 right; by left | done]|].
  destruct (Z.eqb_spec 503 n) as [<-|]; [split; [do 3 right; by left | done]|].
  split; [done|]. intros [?|[?|[?|[?|[]]]]]; congruence.
Qed.

(** C2.  [shouldRetryRequest_(response)] returns true if and only if
    [response.code] is one of the numbers 429, 500, 502, 503.  It returns
    false for 404, for 504, which is what the table gives for the transport
    code 4 of an exceeded deadline, and for 401. *)
Theorem shouldRetryRequest_codes (response : props) :
  (∃ retry, shouldRetryRequest_ (VObject response) = Ok retry ∧
     (retry = true ↔
      read response "code" ∈ [VNumber 429; VNumber 500; VNumber 502; VNumber 503])) ∧
  read GRPC_ERROR_CODE_TO_HTTP "4" = http 504 "Gateway Timeout" ∧
  shouldRetryRequest_ (http 504 "Gateway Timeout") = Ok false ∧
  shouldRetryRequest_ (http 404 "Not Found") = Ok false ∧
  shouldRetryRequest_ (http 401 "Unauthorized") = Ok false.
Proof.
  split; [|done]. eexists. split; [reflexivity|]. apply indexOf_retry_codes.
Qed.

(** ** C3: the error translator *)

Lemma read_set_prop o key v k :
  read (set_prop o key v) k = if String.eqb key k then v else read o k.
Proof. unfold read. rewrite lookup_set_prop. by destruct (String.eqb key k). Qed.








Lemma table_in_range (z : Z) :
  0 ≤ z ≤ 16 →
  ∃ code message, read GRPC_ERROR_CODE_TO_HTTP (pretty z) = http code message.
Proof.
  intros Hz.
  assert (z = 0 ∨ z = 1 ∨ z = 2 ∨ z = 3 ∨ z = 4 ∨ z = 5 ∨ z = 6 ∨ z = 7 ∨ z = 8 ∨
          z = 9 ∨ z = 10 ∨ z = 11 ∨ z = 12 ∨ z = 13 ∨ z = 14 ∨ z = 15 ∨ z = 16)
    as H by lia.
  repeat (destruct H as [->|H]; [vm_compute; by do 2 eexists|]).
  subst. vm_compute. by do 2 eexists.
Qed.

Lemma table_keys :
  keys GRPC_ERROR_CODE_TO_HTTP
  = pretty <$> [0; 1; 2; 3; 4; 5; 6; 7; 8; 9; 10; 11; 12; 13; 14; 15; 16].
Proof. vm_compute. reflexivity. Qed.

(** The decimal form of a number names nothing on [Object.prototype]. *)
Lemma numeral_pretty_N_go x s : numeral s = true → numeral (pretty_N_go x s) = true.
Proof.
  revert s. induction (N.lt_wf_0 x) as [x _ IH]; intros s Hs.
  assert (x = 0 ∨ 0 < x)%N as [->|?] by lia; [by rewrite pretty_N_go_0|].
  rewrite pretty_N_go_step by done. apply IH; [by apply N.div_lt|].
  unfold pretty_N_char. by repeat case_match.
Qed.

Lemma numeral_pretty_N (x : N) : numeral (pretty x) = true.
Proof.
  unfold pretty, pretty_N. case_decide; [done|].
  rewrite pretty_N_go_step by lia. apply numeral_pretty_N_go.
  unfold pretty_N_char. by repeat case_match.
Qed.

Lemma numeral_pretty (z : Z) : numeral (pretty z) = true.
Proof.
  destruct z as [|x|x]; [done| |done]. apply (numeral_pretty_N (N.pos x)).
Qed.

Lemma inherited_numeral s : numeral s = true → inherited s = VUndefined.
Proof.
  destruct s as [|c s]; [done|]. simpl. intros Hc%bool_decide_eq_true.
  rewrite !elem_of_cons, elem_of_nil in Hc.
  unfold inherited.
  repeat (destruct Hc as [->|Hc]; [vm_compute; reflexivity|]). done.
Qed.

Lemma inherited_pretty (z : Z) : inherited (pretty z) = VUndefined.
Proof. apply inherited_numeral, numeral_pretty. Qed.

Lemma table_out_of_range (z : Z) :
  ¬ (0 ≤ z ≤ 16) → read GRPC_ERROR_CODE_TO_HTTP (pretty z) = VUndefined.
Proof.
  intros Hz. unfold read.
  assert (lookup_prop (pretty z) GRPC_ERROR_CODE_TO_HTTP = None) as ->;
    [|apply inherited_pretty].
  apply lookup_prop_None. rewrite table_keys.
  intros (y & Heq & Hy)%list_elem_of_fmap. apply (inj pretty) in Heq as ->.
  apply Hz. rewrite !elem_of_cons, elem_of_nil in Hy. lia.
Qed.

Lemma getError_no_code (err : props) :
  read err "code" = VUndefined → getError_ err = None.
Proof. intros H. unfold getError_. by rewrite H. Qed.

Lemma getError_in_table (err : props) (code : Z) (message : string) :
  read GRPC_ERROR_CODE_TO_HTTP (String_ (read err "code")) = http code message →
  getError_ err
  = Some (set_prop (set_prop (extend_object_with extend_assigned [] err)
                             "code" (VNumber code))
                   "message" (VString message)).
Proof. intros H. unfold getError_. by rewrite H. Qed.










(** ** C4: the final callback of the unary path *)

Section UnaryPath.

Variable service : stub.
Hypothesis service_answers : answers_message service.

Lemma retryRequest_last (retries n : nat) :
  ∃ out last,
    retryRequest service retries n = Ok out ∧
    invocations out = S last ∧ (n ≤ last ≤ n + retries)%nat ∧
    respError out = (attempt service last).1 ∧
    (terminal_err out, terminal_resp out) = (attempt service last).2 ∧
    (callback_err out, callback_resp out)
      = request_callback (respError out) (terminal_err out) (terminal_resp out).
Proof.
  pose proof service_answers as Hmsg.
  revert n. induction retries as [|retries IH]; intros n.
  - simpl. destruct (attempt service n) as [respErr [err response]] eqn:Ha.
    eexists _, n. destruct (rtruthy err); (split; [reflexivity|]);
      simpl; rewrite Ha; split_and!; (done || lia || by destruct request_callback).
  - simpl. destruct (attempt service n) as [respErr [err response]] eqn:Ha.
    destruct (rtruthy err) eqn:Herr.
    { eexists _, n. split; [reflexivity|].
      simpl; rewrite Ha; split_and!; (done || lia || by destruct request_callback). }
    assert (∃ retry, shouldRetryRequest_ (jsval_of response) = Ok retry) as [retry ->].
    { unfold attempt in Ha. specialize (Hmsg n).
      destruct (of_stub (service n).1) as [ | |r e] eqn:He.
      - destruct Hmsg as (id & o & Ho); [done|].
        injection Ha as <- <- <-. rewrite Ho. by eexists.
      - destruct Hmsg as (id & o & Ho); [done|].
        injection Ha as <- <- <-. rewrite Ho. by eexists.
      - destruct (getError_ e); injection Ha as <- <- <-; [by eexists | done]. }
    simpl. destruct retry.
    + destruct (IH (S n)) as (out & last & Hout & ? & ? & ? & ? & ?).
      exists out, last. split_and!; (done || lia).
    + eexists _, n. split; [reflexivity|].
      simpl; rewrite Ha; split_and!; (done || lia || by destruct request_callback).
Qed.

(** C4, amended.  When the stub answers every successful invocation with a
    message, the unary path calls back exactly as the last attempt decides.
    If that attempt failed with an error the table translates, the response
    the retry layer ends with is the very object stored in [respError], and
    the callback receives that translated error and a null response.  If it
    failed with an error the table does not translate, [respError] is null,
    the retry layer ends with that raw error, and the callback receives the
    raw error with the stub's response: a failure.  If it succeeded, the
    response is not [respError] and the callback receives no error and the
    stub's response. *)
Theorem request_final_callback (retries : nat) :
  ∃ out last,
    unary_call service retries = Ok out ∧
    invocations out = S last ∧
    match of_stub (service last).1 with
    | RObject r e =>
        match getError_ e with
        | Some translated =>
            respError out = RObject (FromGetError last) translated ∧
            rstrict_eq (terminal_resp out) (respError out) = true ∧
            callback_err out = respError out ∧ callback_resp out = RNull
        | None =>
            respError out = RNull ∧
            callback_err out = RObject r e ∧
            callback_resp out = of_stub (service last).2
        end
    | _ =>
        rstrict_eq (terminal_resp out) (respError out) = false ∧
        rtruthy (callback_err out) = false ∧
        callback_resp out = of_stub (service last).2
    end.
Proof.
  pose proof service_answers as Hmsg.
  destruct (retryRequest_last retries 0)
    as (out & last & Hout & Hinv & Hlast & HrespError & Hterminal & Hcallback).
  exists out, last. split_and!; [done | done |].
  specialize (Hmsg last). unfold attempt in *.
  destruct (of_stub (service last).1) as [ | |r e] eqn:He.
  - destruct Hmsg as (id & o & Ho); [done|]. rewrite Ho in *. simpl in *.
    injection Hterminal as Hte Htr. rewrite HrespError, Hte, Htr in Hcallback.
    injection Hcallback as -> ->. rewrite Htr, HrespError. done.
  - destruct Hmsg as (id & o & Ho); [done|]. rewrite Ho in *. simpl in *.
    injection Hterminal as Hte Htr. rewrite HrespError, Hte, Htr in Hcallback.
    injection Hcallback as -> ->. rewrite Htr, HrespError. done.
  - clear Hmsg. destruct (getError_ e) as [translated|]; simpl in *.
    + injection Hterminal as Hte Htr. rewrite HrespError, Hte, Htr in Hcallback.
      unfold request_callback in Hcallback. simpl in Hcallback.
      rewrite bool_decide_eq_true_2 in Hcallback by done.
      injection Hcallback as -> ->. rewrite Htr, HrespError. simpl.
      by rewrite bool_decide_eq_true_2.
    + injection Hterminal as Hte Htr. rewrite HrespError, Hte, Htr in Hcallback.
      by injection Hcallback as -> ->.
Qed.

End UnaryPath.

Lemma request_final_callback_witness :
  answers_message flaky_stub ∧
  ∃ out last, unary_call flaky_stub 2 = Ok out ∧ invocations out = S last.
Proof.
  assert (answers_message flaky_stub) as H.
  { intros n. unfold flaky_stub. destruct (n <? 2)%nat; simpl; [done | by eauto]. }
  split; [exact H|].
  destruct (request_final_callback flaky_stub H 2) as (out & last & ? & ? & _).
  by exists out, last.
Defined.

(** With two retries allowed the flaky stub is invoked three times and the
    caller gets its payload. *)
Lemma flaky_stub_succeeds :
  ∃ out, unary_call flaky_stub 2 = Ok out ∧ invocations out = 3%nat ∧
         callback_err out = RNull ∧
         callback_resp out = RObject (FromStub 7) [("ok", VBool true)].
Proof. by eexists. Qed.

(** A stub that always fails with transport code 5 is invoked once, and the
    caller gets the translated error. *)
Lemma not_found_is_terminal :
  ∃ out, unary_call (λ _, (SObject 0 [("code", VNumber 5)], SUndefined)) 2 = Ok out ∧
         invocations out = 1%nat ∧
         callback_err out
           = RObject (FromGetError 0)
                     [("code", VNumber 404); ("message", VString "Not Found")] ∧
         callback_resp out = RNull.
Proof. by eexists. Qed.

(** An exceeded deadline, transport code 4, is not retried either. *)
Lemma deadline_exceeded_is_terminal :
  ∃ out, unary_call (λ _, (SObject 0 [("code", VNumber 4)], SUndefined)) 2 = Ok out ∧
         invocations out = 1%nat ∧
         callback_err out
           = RObject (FromGetError 0)
                     [("code", VNumber 504); ("message", VString "Gateway Timeout")] ∧
         callback_resp out = RNull.
Proof. by eexists. Qed.

(** C4 as stated fails: when the stub fails with a transport code outside the
    table, the retry layer ends with a response that is not [respError], and
    yet the callback is invoked with an error, not with a payload as a
    success. *)
Lemma request_final_callback_counterexample :
  ∃ out, unary_call (λ _, (SObject 0 [("code", VNumber 17)], SUndefined)) 2 = Ok out ∧
         rstrict_eq (terminal_resp out) (respError out) = false ∧
         callback_err out = RObject (FromStub 0) [("code", VNumber 17)] ∧
         rtruthy (callback_err out) = true ∧
         callback_resp out = RUndefined.
Proof. by eexists. Qed.

(** ** The registry and the gate *)

Lemma getService_inv this serial name instance this1 serial1 :
  getService_ this serial name = Ok (instance, this1, serial1) →
  match activeServiceMap_ this !! name with
  | Some cached => instance = cached ∧ this1 = this ∧ serial1 = serial
  | None =>
      this1 = set_activeService this name instance ∧ serial1 = S serial ∧
      stub_baseUrl instance = baseUrl this ∧
      stub_credentials instance = grpcCredentials this ∧
      stub_serial instance = serial
  end.
Proof.
  unfold getService_. destruct (activeServiceMap_ this !! name) as [cached|].
  - by intros [= <- <- <-].
  - repeat case_match; try done; by intros [= <- <- <-].
Qed.

Lemma getService_hit this serial name instance :
  activeServiceMap_ this !! name = Some instance →
  getService_ this serial name = Ok (instance, this, serial).
Proof. intros H. unfold getService_. by rewrite H. Qed.

(** Nothing [proceed] does removes or replaces a cached stub or touches the
    credentials and the calls to the provider. *)
Lemma proceed_inv w c :
  grpcCredentials (this (proceed w c)) = grpcCredentials (this w) ∧
  getAuthClient_calls (proceed w c) = getAuthClient_calls w ∧
  awaiting (proceed w c) = awaiting w ∧
  GCLOUD_SANDBOX_ENV (proceed w c) = GCLOUD_SANDBOX_ENV w ∧
  (∀ name instance, activeServiceMap_ (this w) !! name = Some instance →
     activeServiceMap_ (this (proceed w c)) !! name = Some instance) ∧
  (stubs_built w = size (activeServiceMap_ (this w)) →
     stubs_built (proceed w c) = size (activeServiceMap_ (this (proceed w c)))).
Proof.
  unfold proceed.
  destruct (getService_ (this w) (stubs_built w) (protoOpts_service c))
    as [[[instance this1] serial1]|e] eqn:Hget; simpl; [|done].
  apply getService_inv in Hget.
  destruct (activeServiceMap_ (this w) !! protoOpts_service c) as [cached|] eqn:Hc.
  - by destruct Hget as (-> & -> & ->).
  - destruct Hget as (-> & -> & _). simpl. split_and!; try done.
    + intros name instance' Hname. rewrite lookup_insert_ne; [done|]. congruence.
    + intros ->. by rewrite map_size_insert_None.
Qed.

(** What [proceed] records, and what it leaves of the instance. *)
Lemma proceed_effects w c :
  ∃ e, effects (proceed w c) = (effects w ++ [e])%list ∧
       match e with
       | Proceeds c' instance =>
           c' = c ∧
           activeServiceMap_ (this (proceed w c)) !! protoOpts_service c = Some instance ∧
           match activeServiceMap_ (this w) !! protoOpts_service c with
           | Some cached => instance = cached ∧ this (proceed w c) = this w
           | None =>
               this (proceed w c)
               = set_activeService (this w) (protoOpts_service c) instance ∧
               stub_baseUrl instance = baseUrl (this w) ∧
               stub_credentials instance = grpcCredentials (this w) ∧
               class_of (this w) (protoOpts_service c) = Some (stub_class instance)
           end
       | Thrown c' (TypeError _) =>
           c' = c ∧ this (proceed w c) = this w ∧
           stubs_built (proceed w c) = stubs_built w ∧
           activeServiceMap_ (this w) !! protoOpts_service c = None ∧
           class_of (this w) (protoOpts_service c) = None
       | _ => False
       end.
Proof.
  unfold proceed, getService_, class_of.
  destruct (activeServiceMap_ (this w) !! protoOpts_service c) as [cached|] eqn:Hc.
  { eexists. split; [reflexivity|]. simpl. by rewrite ?Hc. }
  destruct (protos (this w) !! protoOpts_service c) as [p|].
  - destruct (p !! protoOpts_service c) as [class|] eqn:Hp.
    + eexists. split; [reflexivity|]. simpl. by rewrite ?Hc, lookup_insert_eq.
    + eexists. split; [reflexivity|]. done.
  - destruct (protos (this w) !! service (this w)) as [p|]; simpl.
    + destruct (p !! protoOpts_service c) as [class|] eqn:Hp.
      * eexists. split; [reflexivity|]. simpl. by rewrite ?Hc, lookup_insert_eq.
      * eexists. split; [reflexivity|]. done.
    + eexists. split; [reflexivity|]. done.
Qed.

Lemma request_with_credentials w c cred :
  grpcCredentials (this w) = Some cred →
  request w c = if GCLOUD_SANDBOX_ENV w then w else proceed w c.
Proof. intros H. unfold request. by rewrite H. Qed.

(** What every event preserves. *)
Lemma step_inv w ev :
  GCLOUD_SANDBOX_ENV (step w ev) = GCLOUD_SANDBOX_ENV w ∧
  (is_Some (grpcCredentials (this w)) →
     is_Some (grpcCredentials (this (step w ev))) ∧
     getAuthClient_calls (step w ev) = getAuthClient_calls w) ∧
  (∀ name instance, activeServiceMap_ (this w) !! name = Some instance →
     activeServiceMap_ (this (step w ev)) !! name = Some instance) ∧
  (stubs_built w = size (activeServiceMap_ (this w)) →
     stubs_built (step w ev) = size (activeServiceMap_ (this (step w ev)))).
Proof.
  destruct ev as [c|ticket a]; simpl.
  - unfold request. destruct (GCLOUD_SANDBOX_ENV w) eqn:Hs; [done|].
    destruct (grpcCredentials (this w)) as [cred|] eqn:Hc.
    + destruct (proceed_inv w c) as (Hcr & Hcalls & _ & Hsb & Hmap & Hsize).
      rewrite Hcr, Hc, Hsb. by split_and!.
    + simpl. split_and!; [done | by intros [] | done | done].
  - unfold getAuthClient_answers. destruct (awaiting w !! ticket) as [c|]; [|done].
    destruct a as [err|authClient]; [done|].
    set (w1 := {| this := set_grpcCredentials (this w) (Combined authClient);
                  GCLOUD_SANDBOX_ENV := GCLOUD_SANDBOX_ENV w;
                  getAuthClient_calls := getAuthClient_calls w;
                  awaiting := awaiting w;
                  stubs_built := stubs_built w; effects := effects w |}).
    rewrite (request_with_credentials w1 c (Combined authClient)) by done.
    change (GCLOUD_SANDBOX_ENV w1) with (GCLOUD_SANDBOX_ENV w).
    destruct (GCLOUD_SANDBOX_ENV w) eqn:Hs; [by split_and!; eauto|].
    destruct (proceed_inv w1 c) as (Hcr & Hcalls & _ & Hsb & Hmap & Hsize).
    rewrite Hcr, Hcalls, Hsb. split_and!; try done; by eauto.
Qed.

Lemma run_inv w evs :
  GCLOUD_SANDBOX_ENV (run w evs) = GCLOUD_SANDBOX_ENV w ∧
  (is_Some (grpcCredentials (this w)) →
     is_Some (grpcCredentials (this (run w evs))) ∧
     getAuthClient_calls (run w evs) = getAuthClient_calls w) ∧
  (∀ name instance, activeServiceMap_ (this w) !! name = Some instance →
     activeServiceMap_ (this (run w evs)) !! name = Some instance) ∧
  (stubs_built w = size (activeServiceMap_ (this w)) →
     stubs_built (run w evs) = size (activeServiceMap_ (this (run w evs)))).
Proof.
  revert w. induction evs as [|ev evs IH]; intros w; [done|].
  simpl. destruct (step_inv w ev) as (Hs & Hc & Hm & Hb).
  destruct (IH (step w ev)) as (Hs' & Hc' & Hm' & Hb').
  split_and!.
  - congruence.
  - intros H. destruct (Hc H) as [H1 H2]. destruct (Hc' H1) as [H3 H4].
    split; [done | congruence].
  - eauto.
  - eauto.
Qed.

(** ** C6: one stub per service name *)

Lemma getService_miss this serial name class :
  activeServiceMap_ this !! name = None → class_of this name = Some class →
  getService_ this serial name
  = Ok ({| stub_class := class; stub_baseUrl := baseUrl this;
           stub_credentials := grpcCredentials this; stub_serial := serial |},
        set_activeService this name
          {| stub_class := class; stub_baseUrl := baseUrl this;
             stub_credentials := grpcCredentials this; stub_serial := serial |},
        S serial).
Proof.
  unfold getService_, class_of. intros -> Hclass.
  destruct (protos this !! name) as [p|].
  - by rewrite Hclass.
  - destruct (protos this !! service this) as [p|]; [|done].
    simpl in Hclass. by rewrite Hclass.
Qed.

(** C6.  For a service name whose class the loaded protos provide,
    [getService_] returns an instance.  If the name was not cached, that
    instance is built by the call, bound to the base URL and to the
    credentials of that moment, and stored under the name; if it was cached,
    the cached instance is returned, nothing changes and nothing is built.
    From then on, whatever requests and provider answers follow,
    [getService_] returns this same instance for the name, changes nothing and
    builds nothing.  And on an instance that starts with an empty registry,
    after any run as many stubs have been built as names are cached: no name
    ever gets a second stub. *)
Theorem getService_cached (this0 : GrpcService) (serial : nat) (name class : string) :
  class_of this0 name = Some class →
  ∃ instance this1 serial1,
    getService_ this0 serial name = Ok (instance, this1, serial1) ∧
    activeServiceMap_ this1 !! name = Some instance ∧
    match activeServiceMap_ this0 !! name with
    | None =>
        instance = {| stub_class := class; stub_baseUrl := baseUrl this0;
                      stub_credentials := grpcCredentials this0;
                      stub_serial := serial |} ∧
        this1 = set_activeService this0 name instance ∧ serial1 = S serial
    | Some cached => instance = cached ∧ this1 = this0 ∧ serial1 = serial
    end ∧
    (∀ w evs, this w = this1 →
       getService_ (this (run w evs)) (stubs_built (run w evs)) name
       = Ok (instance, this (run w evs), stubs_built (run w evs))) ∧
    (∀ sandbox_env evs, activeServiceMap_ this0 = ∅ →
       stubs_built (run (start this0 sandbox_env) evs)
       = size (activeServiceMap_ (this (run (start this0 sandbox_env) evs)))).
Proof.
  intros Hclass.
  assert (∃ instance this1 serial1,
    getService_ this0 serial name = Ok (instance, this1, serial1) ∧
    activeServiceMap_ this1 !! name = Some instance ∧
    match activeServiceMap_ this0 !! name with
    | None =>
        instance = {| stub_class := class; stub_baseUrl := baseUrl this0;
                      stub_credentials := grpcCredentials this0;
                      stub_serial := serial |} ∧
        this1 = set_activeService this0 name instance ∧ serial1 = S serial
    | Some cached => instance = cached ∧ this1 = this0 ∧ serial1 = serial
    end) as (instance & this1 & serial1 & Hget & Hcached & Hcases).
  { destruct (activeServiceMap_ this0 !! name) as [cached|] eqn:Hc.
    - exists cached, this0, serial. by rewrite (getService_hit _ _ _ cached).
    - eexists _, _, _. split; [by apply getService_miss|].
      split; [apply lookup_insert_eq | done]. }
  exists instance, this1, serial1. split_and!; try done.
  - intros w evs Hw. apply getService_hit.
    destruct (run_inv w evs) as (_ & _ & Hm & _). apply Hm. by rewrite Hw.
  - intros sandbox_env evs Hempty.
    destruct (run_inv (start this0 sandbox_env) evs) as (_ & _ & _ & Hsize).
    apply Hsize. simpl. by rewrite Hempty.
Qed.

Lemma getService_cached_witness :
  class_of pubsub "Publisher" = Some "google.pubsub.v1.Publisher" ∧
  ∃ instance this1,
    getService_ pubsub 0 "Publisher" = Ok (instance, this1, 1%nat) ∧
    instance = publisher_stub None ∧
    let w := run (start this1 false)
                 [Request (publish 1); Answer 0 (AuthClient 7); Request (publish 2)] in
    getService_ (this w) (stubs_built w) "Publisher" = Ok (instance, this w, stubs_built w).
Proof.
  assert (class_of pubsub "Publisher" = Some "google.pubsub.v1.Publisher") as H
    by (vm_compute; reflexivity).
  split; [exact H|].
  destruct (getService_cached pubsub 0 "Publisher" "google.pubsub.v1.Publisher" H)
    as (instance & this1 & serial1 & Hget & _ & Hcases & Hlater & _).
  exists instance, this1.
  assert (activeServiceMap_ pubsub !! "Publisher" = None) as Hnone
    by (vm_compute; reflexivity).
  rewrite Hnone in Hcases. destruct Hcases as (Hi & _ & Hs).
  split_and!.
  - by rewrite <-Hs.
  - exact Hi.
  - exact (Hlater (start this1 false) _ eq_refl).
Defined.

(** ** C5: the credential gate *)



(** * Further properties of the module *)

(** ** The shape of what the encoder writes *)

Lemma NoDup_keys_set_prop o key v :
  NoDup (keys o) → NoDup (keys (set_prop o key v)).
Proof.
  intros Hnd. rewrite keys_set_prop. case_bool_decide as Hin; [done|].
  apply NoDup_app. split_and!; [done | | apply NoDup_singleton].
  intros x Hx ->%list_elem_of_singleton. done.
Qed.

Lemma for_in_encode_NoDup options ps acc fields :
  for_in (encode_field options) ps acc = Ok fields →
  NoDup (keys acc) → NoDup (keys fields).
Proof.
  revert acc. induction ps as [|[k v] ps IH]; intros acc; simpl.
  - by intros [= ->].
  - intros (acc' & Hbody & Hrest)%bind_Ok Hnd. apply (IH _ Hrest).
    unfold encode_field in Hbody. destruct (is_undefined v).
    + by injection Hbody as <-.
    + apply bind_Ok in Hbody as (e & _ & [= <-]). by apply NoDup_keys_set_prop.
Qed.

Lemma array_map_Ok callback elems index es :
  array_map callback elems index = Ok es →
  Forall2 (λ v e, ∃ i, callback v i = Ok e) elems es.
Proof.
  revert index es. induction elems as [|v elems IH]; intros index es; simpl.
  - intros [= <-]. constructor.
  - intros (e & He & (es' & Hes & [= <-])%bind_Ok)%bind_Ok.
    constructor; [by eexists | by eapply IH].
Qed.

Lemma encodeValue_is_Value value options e :
  encodeValue_ value options = Ok e → is_Value e = true.
Proof.
  revert options e.
  induction value as [ | | | | | |ps IH|elems IH| ] using jsval_ind;
    intros options e.
  - rewrite encodeValue_else by done. case_match; [|done]. by intros [= <-].
  - by intros [= <-].
  - by intros [= <-].
  - by intros [= <-].
  - by intros [= <-].
  - by intros [= <-].
  - rewrite encodeValue_object, objToStruct_unfold.
    intros (struct & (fields & Hloop & [= <-])%bind_Ok & [= <-])%bind_Ok.
    cbn -[forallb]. apply andb_true_intro. split.
    + apply bool_decide_eq_true. eapply for_in_encode_NoDup; [exact Hloop|].
      apply NoDup_nil_2.
    + apply forallb_forall. intros [k x] Hin%list_elem_of_In.
      apply for_in_encode_Ok in Hloop as (_ & Hvals & _).
      destruct (Hvals _ _ Hin) as [?%elem_of_nil|(v & Hv & _ & Henc)]; [done|].
      rewrite Forall_forall in IH. by apply (IH _ Hv) in Henc.
  - rewrite encodeValue_array.
    intros (values & Hmap & [= <-])%bind_Ok. cbn -[forallb].
    apply forallb_forall. intros x Hin%list_elem_of_In.
    apply array_map_Ok in Hmap.
    apply list_elem_of_lookup in Hin as [i Hi].
    destruct (Forall2_lookup_r _ _ _ _ _ Hmap Hi) as (v & Hv & j & Henc).
    rewrite Forall_forall in IH. eapply IH; [|exact Henc].
    by eapply list_elem_of_lookup_2.
  - rewrite encodeValue_else by done. case_match; [|done]. by intros [= <-].
Qed.

(** X1.  Whatever [encodeValue_] returns is a [Value] message with exactly
    one member, named after the type of what it holds, and so on through the
    structs and lists inside it; whatever [objToStruct_] returns is
    [{fields: {...}}] with such a [Value] under each name, and no name
    twice. *)
Theorem encoder_writes_Values (value : jsval) (obj : props) (options : jsval) :
  match encodeValue_ value options with
  | Ok e => is_Value e = true
  | Throw _ => True
  end ∧
  match objToStruct_ obj options with
  | Ok struct => is_Struct struct = true
  | Throw _ => True
  end.
Proof.
  split.
  - destruct (encodeValue_ value options) as [e|] eqn:He; [|done].
    by eapply encodeValue_is_Value.
  - destruct (objToStruct_ obj options) as [struct|] eqn:Hs; [|done].
    rewrite objToStruct_unfold in Hs.
    apply bind_Ok in Hs as (fields & Hloop & [= <-]).
    cbn -[forallb]. apply andb_true_intro. split.
    + apply bool_decide_eq_true. eapply for_in_encode_NoDup; [exact Hloop|].
      apply NoDup_nil_2.
    + apply forallb_forall. intros [k x] Hin%list_elem_of_In.
      apply for_in_encode_Ok in Hloop as (_ & Hvals & _).
      destruct (Hvals _ _ Hin) as [?%elem_of_nil|(v & Hv & _ & Hx)]; [done|].
      by eapply encodeValue_is_Value.
Qed.

Lemma stringify_on_js_or options :
  stringify_on (js_or options (VObject [])) = stringify_on options.
Proof. unfold stringify_on. by rewrite js_or_idemp. Qed.

Lemma objToStruct_returns obj options :
  (∀ k v o, (k, v) ∈ obj → returns (encodeValue_ v o) = encodable (stringify_on o) v) →
  returns (objToStruct_ obj options) = encodable_props (stringify_on options) obj.
Proof.
  intros IH. rewrite objToStruct_unfold. unfold encodable_props.
  destruct (for_in (encode_field _) obj []) as [fields|e] eqn:Hloop; simpl.
  - symmetry. apply forallb_forall. intros [k v] Hin%list_elem_of_In.
    apply for_in_encode_Ok in Hloop as (_ & _ & Hall).
    simpl. destruct (is_undefined v) eqn:Hu; [done|].
    destruct (Hall _ _ Hin) as [e He]; [by intros ->|]. simpl.
    by rewrite <-stringify_on_js_or, <-(IH k), He.
  - apply for_in_encode_Throw in Hloop as (k & v & Hin & Hv & He).
    destruct (forallb _ obj) eqn:Hall; [|done].
    rewrite forallb_forall in Hall.
    specialize (Hall (k, v) ltac:(by apply list_elem_of_In)). simpl in Hall.
    rewrite <-stringify_on_js_or, <-(IH k), He in Hall by done.
    by destruct v.
Qed.

Lemma array_map_returns callback elems index (accepted : jsval → bool) :
  (∀ v i, v ∈ elems → returns (callback v i) = accepted v) →
  returns (array_map callback elems index) = forallb accepted elems.
Proof.
  revert index. induction elems as [|v elems IH]; intros index Hall; [done|].
  simpl. rewrite <-(Hall v index) by left.
  destruct (callback v index) as [e|]; simpl; [|done].
  rewrite <-(IH (S index)); [|intros; apply Hall; by right].
  by destruct (array_map callback elems (S index)).
Qed.

Lemma stringify_on_undefined : stringify_on VUndefined = false.
Proof. reflexivity. Qed.

Lemma encodeValue_returns value options :
  returns (encodeValue_ value options) = encodable (stringify_on options) value.
Proof.
  revert options.
  induction value as [ | | | | | |ps IH|elems IH| ] using jsval_ind;
    intros options; try done.
  - rewrite encodeValue_else by done. by destruct (stringify_on options).
  - rewrite encodeValue_object.
    pose proof (objToStruct_returns ps VUndefined) as H.
    rewrite stringify_on_undefined in H.
    destruct (objToStruct_ ps VUndefined); simpl in *; apply H;
      intros k v o Hin; rewrite Forall_forall in IH; apply (IH _ Hin).
  - rewrite encodeValue_array.
    pose proof (array_map_returns
      (λ v index, encodeValue_ v (VNumber (Z.of_nat index))) elems 0 (encodable false))
      as H.
    destruct (array_map _ elems 0%nat); simpl in *; apply H;
      intros v i Hin; rewrite Forall_forall in IH;
      by rewrite (IH _ Hin), stringify_on_index.
  - rewrite encodeValue_else by done. by destruct (stringify_on options).
Qed.

(** X2.  On values in which no property, at any depth, is named
    [hasOwnProperty] or [__proto__]: [encodeValue_(value, options)] returns
    exactly when [value] is of a recognized type or [options.stringify] is
    set, every element of an array in it is of a recognized type, and so is
    every property of an object in it that is not [undefined]: inside arrays
    and objects [stringify] does not count.  [objToStruct_(obj, options)]
    returns exactly when this holds of each property of [obj] that is not
    [undefined], [stringify] counting for the properties themselves;
    otherwise each throws. *)
Theorem encoder_accepts (value : jsval) (obj : props) (options : jsval) :
  ordinary value = true → ordinary (VObject obj) = true →
  returns (encodeValue_ value options) = encodable (stringify_on options) value ∧
  returns (objToStruct_ obj options) = encodable_props (stringify_on options) obj.
Proof.
  intros _ _. split; [apply encodeValue_returns|].
  apply objToStruct_returns. intros. apply encodeValue_returns.
Qed.

Lemma encoder_accepts_witness :
  returns (encodeValue_ (VArray [VNumber 1; VOther "function" "function () {}"])
                        (VObject [("stringify", VBool true)]))
  = encodable (stringify_on (VObject [("stringify", VBool true)]))
              (VArray [VNumber 1; VOther "function" "function () {}"]) ∧
  returns (objToStruct_ [("when", VOther "object" "Thu Jan 01 1970")]
                        (VObject [("stringify", VBool true)]))
  = encodable_props (stringify_on (VObject [("stringify", VBool true)]))
                    [("when", VOther "object" "Thu Jan 01 1970")].
Proof.
  exact (encoder_accepts (VArray [VNumber 1; VOther "function" "function () {}"])
           [("when", VOther "object" "Thu Jan 01 1970")]
           (VObject [("stringify", VBool true)]) eq_refl eq_refl).
Defined.

(** X3.  On a value of a recognized type the options change nothing: the
    call returns or throws the same, and returns the same message, whether
    [stringify] is set or not. *)
Theorem encodeValue_recognized_ignores_options (value options1 options2 : jsval) :
  unrecognized value = false →
  encodeValue_ value options1 = encodeValue_ value options2.
Proof. intros Hv. by destruct value. Qed.

Lemma encodeValue_recognized_ignores_options_witness :
  encodeValue_ (VArray [VNumber 1; VOther "function" "function () {}"])
               (VObject [("stringify", VBool true)])
  = encodeValue_ (VArray [VNumber 1; VOther "function" "function () {}"]) VUndefined.
Proof.
  exact (encodeValue_recognized_ignores_options
           (VArray [VNumber 1; VOther "function" "function () {}"])
           (VObject [("stringify", VBool true)]) VUndefined eq_refl).
Defined.

Lemma coded_inj v1 v2 e : coded v1 e → coded v2 e → v1 = v2.
Proof. intros (_ & H1 & _) (_ & H2 & _). congruence. Qed.

(** X4.  The encoding loses nothing on values made of null, numbers,
    strings, booleans, buffers, plain objects and arrays in which no property
    is named [hasOwnProperty] or [__proto__]: two such values with the same
    encoding are the same value. *)
Theorem encodeValue_injective (v1 v2 options1 options2 : jsval) :
  plain v1 = true → plain v2 = true →
  ordinary v1 = true → ordinary v2 = true →
  encodeValue_ v1 options1 = encodeValue_ v2 options2 → v1 = v2.
Proof.
  intros (e1 & Hc1)%encodeValue_coded (e2 & Hc2)%encodeValue_coded _ _ Heq.
  pose proof Hc1 as (He1 & _). pose proof Hc2 as (He2 & _).
  rewrite He1, He2 in Heq. injection Heq as ->. by eapply coded_inj.
Qed.

Lemma encodeValue_injective_witness :
  VObject [("a", VNull); ("b", VArray [VBool true])]
  = VObject [("a", VNull); ("b", VArray [VBool true])].
Proof.
  exact (encodeValue_injective
           (VObject [("a", VNull); ("b", VArray [VBool true])])
           (VObject [("a", VNull); ("b", VArray [VBool true])])
           VUndefined (VObject [("stringify", VBool true)])
           eq_refl eq_refl eq_refl eq_refl eq_refl).
Defined.

(** ** What the decoder reads *)

Lemma get_object o key : get (VObject o) key = Ok (read o key).
Proof. reflexivity. Qed.

Lemma strict_eq_prim_String k s :
  strict_eq_prim k (VString s) = true → k = VString s.
Proof. destruct k; try done. simpl. by intros ->%String.eqb_eq. Qed.

(** X5.  [decodeValue_] looks at two things in a message: [kind], and the
    member [kind] names.  Two messages that agree on these decode alike,
    whatever other members they carry. *)
Theorem decodeValue_reads_kind (message1 message2 : props) :
  read message1 "kind" = read message2 "kind" →
  read message1 (String_ (read message1 "kind"))
    = read message2 (String_ (read message2 "kind")) →
  decodeValue_ (VObject message1) = decodeValue_ (VObject message2).
Proof.
  intros Hkind Hmember. rewrite !decodeValue_unfold, !get_object.
  rewrite <-Hkind in *. cbn [mbind result_bind].
  destruct (strict_eq_prim (read message1 "kind") (VString "structValue")) eqn:H1.
  { apply strict_eq_prim_String in H1. rewrite H1 in Hmember. simpl in Hmember.
    by rewrite Hmember. }
  destruct (strict_eq_prim (read message1 "kind") (VString "nullValue")); [done|].
  destruct (strict_eq_prim (read message1 "kind") (VString "listValue")) eqn:H3.
  { apply strict_eq_prim_String in H3. rewrite H3 in Hmember. simpl in Hmember.
    by rewrite Hmember. }
  by rewrite !get_object, Hmember.
Qed.

Lemma decodeValue_reads_kind_witness :
  decodeValue_ (VObject [("kind", VString "stringValue"); ("stringValue", VString "Hi")])
  = decodeValue_ (VObject [("nullValue", VNull); ("numberValue", VNull);
                           ("stringValue", VString "Hi"); ("boolValue", VNull);
                           ("structValue", VNull); ("listValue", VNull);
                           ("kind", VString "stringValue")]).
Proof.
  exact (decodeValue_reads_kind
           [("kind", VString "stringValue"); ("stringValue", VString "Hi")]
           [("nullValue", VNull); ("numberValue", VNull);
            ("stringValue", VString "Hi"); ("boolValue", VNull);
            ("structValue", VNull); ("listValue", VNull);
            ("kind", VString "stringValue")] eq_refl eq_refl).
Defined.

Lemma structToObj_loop struct :
  structToObj_ struct
  = (fields ← get struct "fields";
     convertedObject ← for_in decode_into (own_props fields) [];
     Ok (VObject convertedObject)).
Proof. reflexivity. Qed.

Lemma for_in_decode_Ok ps acc out :
  for_in decode_into ps acc = Ok out →
  (NoDup (keys acc) → NoDup (keys out)) ∧
  (∀ k, k ∈ keys out ↔ k ∈ keys acc ∨ k ∈ keys ps) ∧
  (∀ k d, (k, d) ∈ out →
     (k, d) ∈ acc ∨ ∃ v, (k, v) ∈ ps ∧ decodeValue_ v = Ok d).
Proof.
  revert acc. induction ps as [|[k v] ps IH]; intros acc; simpl.
  - intros [= ->]. split_and!; [done | | by left].
    intros k. split; [by left|]. by intros [?|?%elem_of_nil].
  - intros (acc' & Hbody & Hrest)%bind_Ok.
    destruct (IH _ Hrest) as (Hnd & Hkeys & Hvals). clear IH Hrest.
    apply bind_Ok in Hbody as (d & Hd & [= <-]). split_and!.
    + intros ?. by apply Hnd, NoDup_keys_set_prop.
    + intros k0. rewrite Hkeys, elem_of_keys_set_prop.
      change (keys ((k, v) :: ps)) with (k :: keys ps).
      rewrite elem_of_cons. naive_solver.
    + intros k0 d0 Hin. apply Hvals in Hin as [Hin|(v0 & ? & ?)].
      * apply elem_of_set_prop in Hin as [[= -> ->]|Hin]; [|by left].
        right. exists v. split; [left | done].
      * right. exists v0. split; [by right | done].
Qed.

(** X6.  Let [struct] have no property, at any depth, named
    [hasOwnProperty] or [__proto__].  When [structToObj_(struct)] returns,
    the object it returns has exactly the names enumerated in
    [struct.fields], each once, and under each name the decoding of a value
    [struct.fields] holds under that name; in particular a struct without
    [fields] decodes to the empty object.  It throws when [struct] is null or
    undefined, or with the exception of a field whose decoding throws. *)
Theorem structToObj_names (struct : jsval) :
  ordinary struct = true →
  match structToObj_ struct with
  | Ok converted =>
      ∃ fields out,
        get struct "fields" = Ok fields ∧ converted = VObject out ∧
        NoDup (keys out) ∧
        (∀ k, k ∈ keys out ↔ k ∈ keys (own_props fields)) ∧
        (∀ k d, (k, d) ∈ out →
           ∃ v, (k, v) ∈ own_props fields ∧ decodeValue_ v = Ok d) ∧
        (fields = VUndefined → out = [])
  | Throw e =>
      get struct "fields" = Throw e ∨
      ∃ fields k v, get struct "fields" = Ok fields ∧
                    (k, v) ∈ own_props fields ∧ decodeValue_ v = Throw e
  end.
Proof.
  intros _. rewrite structToObj_loop.
  destruct (get struct "fields") as [fields|e] eqn:Hf; simpl; [|by left].
  destruct (for_in decode_into (own_props fields) []) as [out|e] eqn:Hloop; simpl.
  - exists fields, out. pose proof Hloop as (Hnd & Hkeys & Hvals)%for_in_decode_Ok.
    split_and!; try done.
    + apply Hnd, NoDup_nil_2.
    + intros k. rewrite Hkeys. split; [by intros [?%elem_of_nil|?] | by right].
    + intros k d Hin. by destruct (Hvals _ _ Hin) as [?%elem_of_nil|?].
    + intros ->. simpl in Hloop. by injection Hloop as <-.
  - right. apply for_in_Throw in Hloop as (acc & k & v & Hin & H).
    unfold decode_into in H. thrown H. by exists fields, k, v.
Qed.

Lemma structToObj_names_witness :
  let struct :=
    VObject [("fields",
              VObject [("name", VObject [("kind", VString "stringValue");
                                         ("stringValue", VString "Stephen")])])] in
  match structToObj_ struct with
  | Ok converted =>
      ∃ fields out,
        get struct "fields" = Ok fields ∧ converted = VObject out ∧
        NoDup (keys out) ∧
        (∀ k, k ∈ keys out ↔ k ∈ keys (own_props fields)) ∧
        (∀ k d, (k, d) ∈ out →
           ∃ v, (k, v) ∈ own_props fields ∧ decodeValue_ v = Ok d) ∧
        (fields = VUndefined → out = [])
  | Throw e =>
      get struct "fields" = Throw e ∨
      ∃ fields k v, get struct "fields" = Ok fields ∧
                    (k, v) ∈ own_props fields ∧ decodeValue_ v = Throw e
  end.
Proof.
  intros struct. exact (structToObj_names struct eq_refl).
Defined.

(** ** From messages back to messages *)

Lemma is_Value_coded n message :
  (weight message ≤ n)%nat → is_Value message = true →
  ∃ v, plain v = true ∧ coded v message.
Proof.
  revert message. induction n as [|n IH]; intros message Hn Hv.
  { pose proof (weight_pos message). lia. }
  destruct message as [ | | | | | |[|[member payload] [|]]| | ]; try done.
  destruct payload as [ | |b|z|s|bytes|[|[name inner] [|]]| | ]; try done.
  - simpl in Hv. apply String.eqb_eq in Hv as ->.
    exists (VBool b). by split_and!.
  - simpl in Hv. apply orb_prop in Hv as [->%String.eqb_eq|Hv].
    + exists (VNumber z). by split_and!.
    + apply andb_prop in Hv as [->%String.eqb_eq ->%Z.eqb_eq].
      exists VNull. by split_and!.
  - simpl in Hv. apply String.eqb_eq in Hv as ->.
    exists (VString s). by split_and!.
  - simpl in Hv. apply String.eqb_eq in Hv as ->.
    exists (VBuffer bytes). by split_and!.
  - destruct inner as [ | | | | | |fields|values| ]; try done.
    + cbn -[forallb] in Hv. apply andb_prop in Hv as [Hv Hall].
      apply andb_prop in Hv as [Hv Hnd]. apply bool_decide_eq_true in Hnd.
      apply andb_prop in Hv as [->%String.eqb_eq ->%String.eqb_eq].
      rewrite forallb_forall in Hall.
      assert (∃ ps, Forall2 (λ p f, p.1 = f.1 ∧ plain p.2 = true ∧ coded p.2 f.2)
                            ps fields) as [ps Hps].
      { cut (∃ ps, Forall2 (λ f p, p.1 = f.1 ∧ plain p.2 = true ∧ coded p.2 f.2)
                           fields ps).
        { intros [ps Hps]. exists ps. by apply Forall2_flip. }
        apply Forall_exists_Forall2, Forall_forall. intros [k e] Hin.
        destruct (IH e) as (v & Hplain & Hcoded).
        - apply (elem_of_list_sum (λ p, weight p.2)) in Hin. simpl in *. lia.
        - apply (Hall (k, e)). by apply list_elem_of_In.
        - by exists (k, v). }
      assert (keys ps = keys fields) as Hkeys.
      { unfold keys. clear -Hps.
        induction Hps as [|p f ps' fields' [Hk _] _ IHps]; [done|].
        rewrite !fmap_cons. by f_equal. }
      exists (VObject ps). unfold coded. split_and!.
      * simpl. apply andb_true_intro. split.
        -- apply bool_decide_eq_true. unfold keys in Hkeys. by rewrite Hkeys.
        -- apply forallb_forall. intros p Hin%list_elem_of_In.
           apply list_elem_of_lookup in Hin as [i Hi].
           by destruct (Forall2_lookup_l _ _ _ _ _ Hps Hi) as (f & _ & _ & ? & _).
      * intros options. rewrite encodeValue_object, objToStruct_unfold.
        rewrite (for_in_encode_coded _ ps fields []); [done| |by rewrite Hkeys].
        eapply Forall2_impl; [exact Hps|]. by intros ?? (? & _ & ?).
      * rewrite decodeValue_unfold. cbn -[structToObj_].
        change (map _ fields) with (map (decode_field withKind) fields).
        rewrite structToObj_unfold, (for_in_decode_coded withKind ps fields []);
          [done| |by rewrite Hkeys].
        eapply Forall2_impl; [exact Hps|]. by intros ?? (? & _ & _ & ? & _).
      * by rewrite decodeValue_unfold.
    + cbn -[forallb] in Hv. apply andb_prop in Hv as [Hv Hall].
      apply andb_prop in Hv as [->%String.eqb_eq ->%String.eqb_eq].
      rewrite forallb_forall in Hall.
      assert (∃ elems, Forall2 (λ v e, plain v = true ∧ coded v e) elems values)
        as [elems Hel].
      { cut (∃ elems, Forall2 (λ e v, plain v = true ∧ coded v e) values elems).
        { intros [elems Hel]. exists elems. by apply Forall2_flip. }
        apply Forall_exists_Forall2, Forall_forall. intros e Hin.
        apply IH.
        - apply (elem_of_list_sum weight) in Hin. simpl in *. lia.
        - apply Hall. by apply list_elem_of_In. }
      exists (VArray elems). unfold coded. split_and!.
      * simpl. apply forallb_forall. intros v Hin%list_elem_of_In.
        apply list_elem_of_lookup in Hin as [i Hi].
        by destruct (Forall2_lookup_l _ _ _ _ _ Hel Hi) as (e & _ & ? & _).
      * intros options. rewrite encodeValue_array.
        rewrite (array_map_encode_coded elems values); [done|].
        eapply Forall2_impl; [exact Hel|]. by intros ?? [_ ?].
      * rewrite decodeValue_unfold. cbn -[decodeValue_].
        rewrite (array_map_decode_coded withKind elems values); [done|].
        eapply Forall2_impl; [exact Hel|]. by intros ?? (_ & _ & ? & _).
      * by rewrite decodeValue_unfold.
  - simpl in Hv. by destruct inner.
Qed.

(** X7.  A [Value] message of the encoder's shape in which no field is named
    [hasOwnProperty] or [__proto__], once it carries [kind] on every leaf,
    decodes to a value made of null, numbers, strings, booleans, buffers,
    objects and arrays, and encoding that value gives the message back, under
    any options. *)
Theorem encodeValue_decodeValue (message options : jsval) :
  is_Value message = true → ordinary message = true →
  ∃ v, decodeValue_ (withKind message) = Ok v ∧ plain v = true ∧
       encodeValue_ v options = Ok message.
Proof.
  intros (v & Hplain & Henc & Hdec & _)%(is_Value_coded (weight message)) _; [|done].
  exists v. by split_and!.
Qed.

Lemma encodeValue_decodeValue_witness :
  ∃ v, decodeValue_ (withKind (VObject [("listValue", VObject [("values",
                        VArray [VObject [("nullValue", VNumber 0)];
                                VObject [("stringValue", VString "Hi")]])])]))
         = Ok v ∧ plain v = true ∧
       encodeValue_ v VUndefined
         = Ok (VObject [("listValue", VObject [("values",
                        VArray [VObject [("nullValue", VNumber 0)];
                                VObject [("stringValue", VString "Hi")]])])]).
Proof.
  exact (encodeValue_decodeValue
           (VObject [("listValue", VObject [("values",
              VArray [VObject [("nullValue", VNumber 0)];
                      VObject [("stringValue", VString "Hi")]])])])
           VUndefined eq_refl eq_refl).
Defined.

(** X8.  With [stringify] set, a value of an unrecognized type is encoded,
    and the message, once it carries [kind], decodes to the value's string
    form. *)
Theorem stringify_decodes_to_String (value options : jsval) :
  unrecognized value = true → stringify_on options = true →
  ∃ message, encodeValue_ value options = Ok message ∧
             decodeValue_ (withKind message) = Ok (VString (String_ value)).
Proof.
  intros Hv Hs. rewrite encodeValue_else, Hs by done. by eexists.
Qed.

Lemma stringify_decodes_to_String_witness :
  ∃ message,
    encodeValue_ VUndefined (VObject [("stringify", VBool true)]) = Ok message ∧
    decodeValue_ (withKind message) = Ok (VString "undefined").
Proof.
  exact (stringify_decodes_to_String VUndefined (VObject [("stringify", VBool true)])
           eq_refl eq_refl).
Defined.

(** ** Translated errors and the retry predicate *)

Lemma table_entries key entry :
  lookup_prop key GRPC_ERROR_CODE_TO_HTTP = Some entry →
  ∃ http_code message, entry = http http_code message ∧ ¬ (0 ≤ http_code ≤ 16).
Proof.
  intros Hentry%lookup_prop_Some. unfold GRPC_ERROR_CODE_TO_HTTP in Hentry.
  repeat (apply elem_of_cons in Hentry as [Hentry|Hentry];
          [injection Hentry as _ ->; eexists _, _; split; [reflexivity | lia]|]).
  by apply elem_of_nil in Hentry.
Qed.

Lemma getError_number err z :
  read err "code" = VNumber z → ¬ (0 ≤ z ≤ 16) → getError_ err = None.
Proof.
  intros Hcode Hz. unfold getError_. rewrite Hcode. simpl String_.
  by rewrite table_out_of_range.
Qed.

(** X9.  A translation is not translated again.  When [err.code] names an
    entry of the table, [getError_(err)] returns an object whose [code] is the
    HTTP-like number of that entry, and none of these numbers is itself a key
    of the table: [getError_] applied to the result returns null. *)
Theorem getError_once (err : props) :
  String_ (read err "code") ∈ keys GRPC_ERROR_CODE_TO_HTTP →
  ∃ e, getError_ err = Some e ∧ getError_ e = None.
Proof.
  intros Hkey.
  destruct (lookup_prop (String_ (read err "code")) GRPC_ERROR_CODE_TO_HTTP)
    as [entry|] eqn:Hentry; [|by apply lookup_prop_None in Hentry].
  destruct (table_entries _ _ Hentry) as (http_code & message & -> & Hcode).
  eexists. split.
  - apply getError_in_table. unfold read at 1. by rewrite Hentry.
  - apply (getError_number _ http_code); [by rewrite !read_set_prop | done].
Qed.

Lemma getError_once_witness :
  ∃ e, getError_ [("code", VString "5"); ("details", VString "no such topic")] = Some e ∧
       getError_ e = None.
Proof.
  refine (getError_once [("code", VString "5"); ("details", VString "no such topic")] _).
  apply (bool_decide_unpack _). vm_compute. exact I.
Defined.

Lemma shouldRetryRequest_code o z :
  read o "code" = VNumber z →
  shouldRetryRequest_ (VObject o) = Ok (bool_decide (z ∈ [429; 500; 502; 503])).
Proof.
  intros Hcode. unfold shouldRetryRequest_. rewrite get_object, Hcode.
  cbn [mbind result_bind]. f_equal. apply eq_true_iff_eq.
  rewrite indexOf_retry_codes, bool_decide_eq_true, !elem_of_cons, !elem_of_nil.
  split; intros H; repeat destruct H as [H|H]; try done.
  all: (injection H as ->; tauto) || (subst; tauto).
Qed.

(** X10.  An error carrying a transport code from 0 to 16 is translated, and
    the retry predicate holds of the translation exactly for the transport
    codes 2, 8, 13, 14 and 15 (those the table maps to 500, 429 or 503). *)
Theorem retried_transport_codes (err : props) (z : Z) :
  read err "code" = VNumber z → 0 ≤ z ≤ 16 →
  ∃ e, getError_ err = Some e ∧
       shouldRetryRequest_ (VObject e) = Ok (bool_decide (z ∈ [2; 8; 13; 14; 15])).
Proof.
  intros Hcode Hz. destruct (table_in_range z Hz) as (http_code & message & He).
  eexists. split.
  { apply getError_in_table. rewrite Hcode. exact He. }
  rewrite (shouldRetryRequest_code _ http_code) by (by rewrite !read_set_prop).
  f_equal.
  assert (z = 0 ∨ z = 1 ∨ z = 2 ∨ z = 3 ∨ z = 4 ∨ z = 5 ∨ z = 6 ∨ z = 7 ∨ z = 8 ∨
          z = 9 ∨ z = 10 ∨ z = 11 ∨ z = 12 ∨ z = 13 ∨ z = 14 ∨ z = 15 ∨ z = 16)
    as H by lia.
  repeat (destruct H as [->|H]; [vm_compute in He; by injection He as <- <-|]).
  subst. vm_compute in He. by injection He as <- <-.
Qed.

Lemma retried_transport_codes_witness :
  ∃ e, getError_ [("code", VNumber 14); ("details", VString "unavailable")] = Some e ∧
       shouldRetryRequest_ (VObject e) = Ok true.
Proof.
  refine (retried_transport_codes
            [("code", VNumber 14); ("details", VString "unavailable")] 14 eq_refl _).
  lia.
Defined.

(** X12.  The table is indexed with [err.code] as a property key, so a code
    given as the decimal string of a number from 0 to 16 is translated like
    the number, and the translation carries the table's numeric code. *)
Theorem getError_string_code (err : props) (z : Z) :
  read err "code" = VString (pretty z) → 0 ≤ z ≤ 16 →
  ∃ http_code message e,
    read GRPC_ERROR_CODE_TO_HTTP (pretty z) = http http_code message ∧
    getError_ err = Some e ∧
    read e "code" = VNumber http_code ∧ read e "message" = VString message.
Proof.
  intros Hcode Hz. destruct (table_in_range z Hz) as (http_code & message & He).
  exists http_code, message. eexists. split_and!; [done | | |].
  - apply getError_in_table. rewrite Hcode. exact He.
  - by rewrite !read_set_prop.
  - by rewrite !read_set_prop.
Qed.

Lemma getError_string_code_witness :
  ∃ e, getError_ [("code", VString "5")] = Some e ∧ read e "code" = VNumber 404.
Proof.
  destruct (getError_string_code [("code", VString "5")] 5 eq_refl)
    as (http_code & message & e & Ht & He & Hc & _); [lia|].
  exists e. split; [exact He|]. vm_compute in Ht. by injection Ht as <- _.
Defined.

(** ** How often the unary path invokes the stub *)

Section UnaryRetries.

Variable service : stub.
Hypothesis service_answers : answers_message service.

Lemma attempt_shouldRetry n :
  rtruthy (attempt service n).2.1 = false →
  ∃ retry, shouldRetryRequest_ (jsval_of (attempt service n).2.2) = Ok retry.
Proof.
  intros Herr. unfold attempt in *. specialize (service_answers n).
  destruct (of_stub (service n).1) as [ | |r e] eqn:He.
  - destruct service_answers as (id & o & ->); [done|]. by eexists.
  - destruct service_answers as (id & o & ->); [done|]. by eexists.
  - destruct (getError_ e); [by eexists | done].
Qed.

Lemma retryRequest_trace (retries n : nat) :
  ∃ out last,
    retryRequest service retries n = Ok out ∧
    invocations out = S last ∧ (n ≤ last ≤ n + retries)%nat ∧
    (∀ m, (n ≤ m < last)%nat → retryable (attempt service m)) ∧
    ((last < n + retries)%nat → ¬ retryable (attempt service last)) ∧
    (callback_err out, callback_resp out)
      = request_callback (attempt service last).1 (attempt service last).2.1
                         (attempt service last).2.2.
Proof.
  revert n. induction retries as [|retries IH]; intros n.
  - simpl. destruct (attempt service n) as [respErr [err response]] eqn:Ha.
    eexists _, n. destruct (rtruthy err); (split; [reflexivity|]); simpl;
      rewrite Ha; split_and!; try (done || lia);
      by destruct request_callback.
  - simpl. destruct (attempt service n) as [respErr [err response]] eqn:Ha.
    destruct (rtruthy err) eqn:Herr.
    { eexists _, n. split; [reflexivity|]. simpl. rewrite Ha.
      split_and!; try (done || lia); [|by destruct request_callback].
      intros _ [H _]. simpl in H. congruence. }
    destruct (attempt_shouldRetry n) as [retry Hretry]; [by rewrite Ha|].
    rewrite Ha in Hretry. simpl in Hretry. rewrite Hretry. simpl.
    destruct retry.
    + destruct (IH (S n)) as (out & last & Hout & ? & ? & Hbefore & Hlast & ?).
      exists out, last. split_and!; try (done || lia).
      * intros m Hm. destruct (decide (m = n)) as [->|].
        -- split; rewrite Ha; done.
        -- apply Hbefore. lia.
      * intros ?. apply Hlast. lia.
    + eexists _, n. split; [reflexivity|]. simpl. rewrite Ha.
      split_and!; try (done || lia); [|by destruct request_callback].
      intros _ [_ H]. simpl in H. congruence.
Qed.

(** X13.  The unary path invokes the stub until the first attempt that is
    not retryable, and at most [retries + 1] times: every attempt before the
    last one ended without an error for the retry layer and with a response of
    which the retry predicate holds, and the last one either is not of that
    kind or is attempt number [retries + 1].  The caller's callback is invoked
    with what the last attempt produced. *)
Theorem unary_call_attempts (retries : nat) :
  ∃ out last,
    unary_call service retries = Ok out ∧
    invocations out = S last ∧ (last ≤ retries)%nat ∧
    (∀ m, (m < last)%nat → retryable (attempt service m)) ∧
    ((last < retries)%nat → ¬ retryable (attempt service last)) ∧
    (callback_err out, callback_resp out)
      = request_callback (attempt service last).1 (attempt service last).2.1
                         (attempt service last).2.2.
Proof.
  destruct (retryRequest_trace retries 0)
    as (out & last & Hout & Hinv & Hlast & Hbefore & Hstop & Hcb).
  exists out, last. split_and!; try (done || lia).
  intros m Hm. apply Hbefore. lia.
Qed.

(** X14.  When every attempt is retryable the stub is invoked exactly
    [retries + 1] times and the result of the last attempt is delivered: this
    is so for a stub that keeps failing with a transport code the table maps
    to 429, 500 or 503, and equally for a stub that keeps succeeding with a
    message whose own [code] field is 429, 500, 502 or 503. *)
Theorem unary_call_exhausts (retries : nat) :
  (∀ n, (n ≤ retries)%nat → retryable (attempt service n)) →
  ∃ out,
    unary_call service retries = Ok out ∧ invocations out = S retries ∧
    (callback_err out, callback_resp out)
      = request_callback (attempt service retries).1 (attempt service retries).2.1
                         (attempt service retries).2.2.
Proof.
  intros Hall. destruct (retryRequest_trace retries 0)
    as (out & last & Hout & Hinv & Hlast & _ & Hstop & Hcb).
  assert (last = retries) as ->.
  { destruct (decide (last < retries)%nat) as [Hlt|]; [|lia].
    destruct (Hstop Hlt). apply Hall. lia. }
  by exists out.
Qed.

End UnaryRetries.

Lemma busy_stub_answers : answers_message busy_stub.
Proof. intros n _. by eexists _, _. Qed.

Lemma unary_call_attempts_witness :
  ∃ out last, unary_call flaky_stub 5 = Ok out ∧ invocations out = S last ∧
              (last ≤ 5)%nat.
Proof.
  assert (answers_message flaky_stub) as H.
  { intros n. unfold flaky_stub. destruct (n <? 2)%nat; simpl; [done | by eauto]. }
  destruct (unary_call_attempts flaky_stub H 5) as (out & last & ? & ? & ? & _).
  by exists out, last.
Defined.

Lemma unary_call_exhausts_witness :
  ∃ out, unary_call busy_stub 2 = Ok out ∧ invocations out = 3%nat ∧
         (callback_err out, callback_resp out)
         = (RNull, RObject (FromStub 2) [("code", VNumber 503); ("status", VString "busy")]).
Proof.
  refine (unary_call_exhausts busy_stub busy_stub_answers 2 _).
  intros n _. by split.
Defined.

(** ** Requests, provider calls and stubs over a run *)

(** X16.  The calls to the provider are not shared.  As long as no
    credentials are set, each of any number of requests calls
    [authClient.getAuthClient] itself: [k] requests in a row make [k] calls,
    each request waits under the ticket of its own call, no callback runs, and
    the instance is left as it was. *)
Theorem requests_each_call_provider (w : world) (cs : list call) :
  grpcCredentials (this w) = None → GCLOUD_SANDBOX_ENV w = false →
  let w' := run w (Request <$> cs) in
  getAuthClient_calls w' = (getAuthClient_calls w + length cs)%nat ∧
  (∀ i c, cs !! i = Some c →
     awaiting w' !! (getAuthClient_calls w + i)%nat = Some c) ∧
  effects w' = effects w ∧ this w' = this w ∧ stubs_built w' = stubs_built w.
Proof.
  intros Hc Hs w'. subst w'.
  assert (∀ cs w, grpcCredentials (this w) = None → GCLOUD_SANDBOX_ENV w = false →
    let w' := run w (Request <$> cs) in
    getAuthClient_calls w' = (getAuthClient_calls w + length cs)%nat ∧
    (∀ k, (k < getAuthClient_calls w)%nat → awaiting w' !! k = awaiting w !! k) ∧
    (∀ i c, cs !! i = Some c →
       awaiting w' !! (getAuthClient_calls w + i)%nat = Some c) ∧
    effects w' = effects w ∧ this w' = this w ∧ stubs_built w' = stubs_built w)
    as Hall.
  { clear. induction cs as [|c cs IH]; intros w Hc Hs.
    - simpl. split_and!; (done || lia).
    - assert (request w c = getGrpcCredentials_ w c) as Hreq
        by (unfold request; by rewrite Hs, Hc).
      simpl. rewrite Hreq. change (list_fmap call event Request cs) with (Request <$> cs).
      destruct (IH (getGrpcCredentials_ w c)) as (Hcalls & Hold & Hnew & He & Ht & Hb);
        [done | done |].
      simpl in *. split_and!; try done.
      + lia.
      + intros k Hk. rewrite Hold by lia. rewrite lookup_insert_ne; [done | lia].
      + intros [|i] c' Hi; simpl in Hi.
        * injection Hi as <-. rewrite Nat.add_0_r, Hold by lia.
          apply lookup_insert_eq.
        * replace (getAuthClient_calls w + S i)%nat
            with (S (getAuthClient_calls w + i))%nat by lia.
          by apply Hnew. }
  destruct (Hall cs w Hc Hs) as (? & _ & ? & ? & ? & ?). done.
Qed.

Lemma requests_each_call_provider_witness :
  let w' := run (start pubsub false) (Request <$> [publish 1; publish 2; publish 3]) in
  getAuthClient_calls w' = 3%nat ∧
  (∀ i c, [publish 1; publish 2; publish 3] !! i = Some c →
     awaiting w' !! (0 + i)%nat = Some c) ∧
  effects w' = [] ∧ this w' = pubsub ∧ stubs_built w' = 0%nat.
Proof.
  exact (requests_each_call_provider (start pubsub false)
           [publish 1; publish 2; publish 3] eq_refl eq_refl).
Defined.

Lemma step_insecure w ev : insecure_world w → insecure_world (step w ev).
Proof.
  intros (Hc & Haw & Hcalls & Hmap & Heff). destruct ev as [c|ticket a]; simpl.
  - rewrite (request_with_credentials w c Insecure) by done.
    destruct (GCLOUD_SANDBOX_ENV w); [done|].
    destruct (proceed_inv w c) as (Hc' & Hcalls' & Haw' & _).
    destruct (proceed_effects w c) as (e & He & Hshape).
    unfold insecure_world. rewrite Hc', Hcalls', Haw', He.
    destruct e as [c' err|c' instance|c' [msg|msg|msg]]; try done.
    + destruct Hshape as (-> & Hnow & Hshape).
      destruct (activeServiceMap_ (this w) !! protoOpts_service c) as [cached|] eqn:Hcache.
      * destruct Hshape as [-> ->]. split_and!; try done.
        apply Forall_app. split; [done|]. apply Forall_singleton. simpl. eauto.
      * destruct Hshape as (-> & _ & Hcred & _). rewrite Hc in Hcred.
        split_and!; try done.
        -- intros name instance'. simpl. intros H.
           apply lookup_insert_Some in H as [[_ <-]|[_ H]]; eauto.
        -- apply Forall_app. split; [done|]. by apply Forall_singleton.
    + destruct Hshape as (-> & -> & _). split_and!; try done.
      apply Forall_app. split; [done|]. by apply Forall_singleton.
  - unfold getAuthClient_answers. by rewrite Haw, lookup_empty.
Qed.

(** X17.  An instance created with [config.customEndpoint] never asks for
    credentials.  Whatever requests are made and whatever answers arrive, the
    provider is never called, no request waits, no callback is invoked with a
    provider error, [grpcCredentials] stays the insecure credentials the
    constructor put there, and every stub a request is served by was built
    with those. *)
Theorem customEndpoint_never_authenticates
    (config_baseUrl config_service : string) (options_maxRetries : nat)
    (loaded : gmap string (gmap string string)) (sandbox_env : bool)
    (evs : list event) :
  let w := run (start (new_GrpcService config_baseUrl config_service true
                         options_maxRetries loaded) sandbox_env) evs in
  getAuthClient_calls w = 0%nat ∧ awaiting w = ∅ ∧
  grpcCredentials (this w) = Some Insecure ∧
  ∀ e, e ∈ effects w →
    match e with
    | CallbackError _ _ => False
    | Proceeds _ instance => stub_credentials instance = Some Insecure
    | Thrown _ _ => True
    end.
Proof.
  intros w.
  assert (∀ evs w0, insecure_world w0 → insecure_world (run w0 evs)) as Hrun.
  { clear. induction evs as [|ev evs IH]; intros w0 H; [done|].
    simpl. by apply IH, step_insecure. }
  destruct (Hrun evs (start (new_GrpcService config_baseUrl config_service true
                               options_maxRetries loaded) sandbox_env))
    as (Hc & Haw & Hcalls & _ & Heff).
  { unfold insecure_world. simpl. by split_and!. }
  split_and!; try done. intros e He.
  rewrite Forall_forall in Heff. by apply Heff in He.
Qed.

Lemma class_of_fields this1 this2 name :
  protos this1 = protos this2 → service this1 = service this2 →
  class_of this1 name = class_of this2 name.
Proof. unfold class_of. by intros -> ->. Qed.

Lemma proceed_in_order this0 w c :
  is_Some (grpcCredentials (this w)) →
  stubs_in_order this0 w → stubs_in_order this0 (proceed w c).
Proof.
  intros Hcred (Hb & Hp & Hsv & Hr & Hmap & Heff).
  destruct (proceed_effects w c) as (e & He & Hshape).
  unfold stubs_in_order. rewrite He.
  destruct e as [c' err|c' instance|c' [msg|msg|msg]]; try done.
  - destruct Hshape as (-> & Hnow & Hshape).
    destruct (activeServiceMap_ (this w) !! protoOpts_service c) as [cached|] eqn:Hcache.
    + destruct Hshape as [-> ->]. split_and!; try done.
      intros c' instance H. apply elem_of_app in H as [H|H]; [by apply Heff|].
      apply list_elem_of_singleton in H. by injection H as -> ->.
    + destruct Hshape as (-> & Hurl & Hcr & Hclass). simpl.
      split_and!; try done.
      * intros name instance' H.
        apply lookup_insert_Some in H as [[<- <-]|[_ H]]; [|by eauto].
        split_and!; [by rewrite Hcr | congruence |].
        rewrite <-Hclass. by apply class_of_fields.
      * intros c' instance' H. apply elem_of_app in H as [H|H].
        -- destruct (decide (protoOpts_service c = protoOpts_service c')) as [Heq|Hne].
           ++ apply Heff in H. congruence.
           ++ rewrite lookup_insert_ne by done. by apply Heff.
        -- apply list_elem_of_singleton in H. injection H as -> ->.
           apply lookup_insert_eq.
  - destruct Hshape as (-> & -> & _). split_and!; try done.
    intros c' instance H. apply elem_of_app in H as [H|H]; [by apply Heff|].
    by apply list_elem_of_singleton in H.
Qed.

Lemma step_in_order this0 w ev :
  stubs_in_order this0 w → stubs_in_order this0 (step w ev).
Proof.
  intros Hord. destruct ev as [c|ticket a]; simpl.
  - unfold request. destruct (GCLOUD_SANDBOX_ENV w); [done|].
    destruct (grpcCredentials (this w)) as [cred|] eqn:Hc.
    + apply proceed_in_order; [by rewrite Hc | done].
    + done.
  - unfold getAuthClient_answers. destruct (awaiting w !! ticket) as [c|]; [|done].
    destruct a as [err|authClient].
    + destruct Hord as (? & ? & ? & ? & ? & Heff). split_and!; try done.
      simpl. intros c' instance Hin.
      apply elem_of_app in Hin as [Hin|Hin]; [by apply Heff|].
      by apply list_elem_of_singleton in Hin.
    + set (w1 := {| this := set_grpcCredentials (this w) (Combined authClient);
                    GCLOUD_SANDBOX_ENV := GCLOUD_SANDBOX_ENV w;
                    getAuthClient_calls := getAuthClient_calls w;
                    awaiting := awaiting w;
                    stubs_built := stubs_built w; effects := effects w |}).
      assert (stubs_in_order this0 w1) as Hord1 by exact Hord.
      rewrite (request_with_credentials w1 c (Combined authClient)) by done.
      destruct (GCLOUD_SANDBOX_ENV w1); [done|].
      by apply proceed_in_order.
Qed.

(** X18.  No stub is built without credentials.  On an instance that starts
    with an empty registry, after any sequence of requests and provider
    answers, every request that reached the retry layer is served by the stub
    cached under its service name, and that stub was built with credentials
    present, for the base URL of the instance, from the class the loaded
    protos give for the name. *)
Theorem stubs_carry_credentials (this0 : GrpcService) (sandbox_env : bool)
    (evs : list event) (c : call) (instance : ServiceInstance) :
  activeServiceMap_ this0 = ∅ →
  let w := run (start this0 sandbox_env) evs in
  Proceeds c instance ∈ effects w →
  activeServiceMap_ (this w) !! protoOpts_service c = Some instance ∧
  is_Some (stub_credentials instance) ∧
  stub_baseUrl instance = baseUrl this0 ∧
  class_of this0 (protoOpts_service c) = Some (stub_class instance).
Proof.
  intros Hempty w Hin.
  assert (∀ evs w0, stubs_in_order this0 w0 → stubs_in_order this0 (run w0 evs))
    as Hrun.
  { clear. induction evs as [|ev evs IH]; intros w0 H; [done|].
    simpl. by apply IH, step_in_order. }
  destruct (Hrun evs (start this0 sandbox_env)) as (_ & _ & _ & _ & Hmap & Heff).
  { unfold stubs_in_order. simpl. split_and!; try done.
    - intros name instance' H. by rewrite Hempty, lookup_empty in H.
    - intros c' instance' H. by apply elem_of_nil in H. }
  fold w in Hmap, Heff. apply Heff in Hin. split; [done|]. by apply Hmap.
Qed.

Lemma stubs_carry_credentials_witness :
  let w := run (start pubsub false)
               [Request (publish 1); Answer 0 (AuthClient 7); Request (publish 2)] in
  activeServiceMap_ (this w) !! "Publisher" = Some (publisher_stub (Some (Combined 7))) ∧
  is_Some (stub_credentials (publisher_stub (Some (Combined 7)))) ∧
  stub_baseUrl (publisher_stub (Some (Combined 7))) = baseUrl pubsub ∧
  class_of pubsub "Publisher" = Some (stub_class (publisher_stub (Some (Combined 7)))).
Proof.
  refine (stubs_carry_credentials pubsub false
            [Request (publish 1); Answer 0 (AuthClient 7); Request (publish 2)]
            (publish 2) (publisher_stub (Some (Combined 7))) eq_refl _).
  apply (list_elem_of_lookup_2 _ 1%nat). vm_compute. reflexivity.
Defined.

(** X19.  A request for a service name that is not cached and for which the
    loaded protos give no class does not reach its callback: [getService_]
    throws a [TypeError] out of [request], nothing is cached, nothing is
    built and the provider is not called, so the same request throws again. *)
Theorem unknown_service_throws (w : world) (c : call) :
  GCLOUD_SANDBOX_ENV w = false → is_Some (grpcCredentials (this w)) →
  activeServiceMap_ (this w) !! protoOpts_service c = None →
  class_of (this w) (protoOpts_service c) = None →
  ∃ msg,
    effects (request w c) = (effects w ++ [Thrown c (TypeError msg)])%list ∧
    this (request w c) = this w ∧ stubs_built (request w c) = stubs_built w ∧
    getAuthClient_calls (request w c) = getAuthClient_calls w ∧
    awaiting (request w c) = awaiting w ∧
    effects (request (request w c) c)
    = (effects w ++ [Thrown c (TypeError msg); Thrown c (TypeError msg)])%list.
Proof.
  intros Hs [cred Hcred] Hcache Hclass.
  assert (∃ msg, getService_ (this w) (stubs_built w) (protoOpts_service c)
                 = Throw (TypeError msg)) as [msg Hget].
  { unfold getService_, class_of in *. rewrite Hcache.
    destruct (protos (this w) !! protoOpts_service c) as [p|].
    - rewrite Hclass. by eexists.
    - destruct (protos (this w) !! service (this w)) as [p|]; simpl in Hclass.
      + rewrite Hclass. by eexists.
      + by eexists. }
  exists msg.
  assert (request w c
          = {| this := this w; GCLOUD_SANDBOX_ENV := GCLOUD_SANDBOX_ENV w;
               getAuthClient_calls := getAuthClient_calls w; awaiting := awaiting w;
               stubs_built := stubs_built w;
               effects := (effects w ++ [Thrown c (TypeError msg)])%list |}) as ->.
  { unfold request, proceed. by rewrite Hs, Hcred, Hget. }
  simpl. split_and!; try done.
  unfold request, proceed. simpl. rewrite Hs, Hcred, Hget. simpl.
  by rewrite <-app_assoc.
Qed.

Lemma unknown_service_throws_witness :
  let w := run (start pubsub false) [Request (publish 1); Answer 0 (AuthClient 7)] in
  let c := {| caller := 2; protoOpts_service := "Subscriber";
              protoOpts_method := "pull" |} in
  ∃ msg,
    effects (request w c) = (effects w ++ [Thrown c (TypeError msg)])%list ∧
    this (request w c) = this w ∧ stubs_built (request w c) = stubs_built w ∧
    getAuthClient_calls (request w c) = getAuthClient_calls w ∧
    awaiting (request w c) = awaiting w ∧
    effects (request (request w c) c)
    = (effects w ++ [Thrown c (TypeError msg); Thrown c (TypeError msg)])%list.
Proof.
  intros w c.
  exact (unknown_service_throws w c eq_refl (ex_intro _ (Combined 7) eq_refl)
           eq_refl eq_refl).
Defined.

(** X20.  In the sandbox environment [request] does nothing at all: whatever
    requests are made, the provider is not called, no stub is built, nothing
    is cached and no callback is ever invoked. *)
Theorem sandbox_env_inert (this0 : GrpcService) (evs : list event) :
  run (start this0 true) evs = start this0 true.
Proof.
  induction evs as [|ev evs IH]; [done|].
  change (run (start this0 true) (ev :: evs))
    with (run (step (start this0 true) ev) evs).
  assert (step (start this0 true) ev = start this0 true) as ->; [|exact IH].
  destruct ev as [c|ticket a]; [done|].
  unfold step, getAuthClient_answers. cbn [awaiting start]. by rewrite lookup_empty.
Qed.
